(** * sconsify: playback coordination engine

    A shallow embedding of the keystroke dispatcher (the keyboard half of
    [ui/cui.go]), of the next-track selection of the console interface
    (the interface half of [ui/cui.go]) and of the backend event loop
    ([spotify/spotify.go], with the handlers of its complete earlier
    version), followed by the properties proved of them. *)

From Stdlib Require Import ZArith Ascii String List Lia Bool.
From Stdlib Require Import Decimal DecimalString DecimalZ.
From stdpp Require Import gmap strings list.
From Equations Require Import Equations.

Local Open Scope Z_scope.

(** ** Shared Go vocabulary *)

(** A Go [error] value; [None] is [nil]. *)
Definition error := option string.

(** A Go [rune] (int32 code point). *)
Definition rune := Z.

(** Go's [int] on the 64-bit targets the program is built for. *)
Definition wrap64 (z : Z) : Z := (z + 2 ^ 63) mod 2 ^ 64 - 2 ^ 63.

Definition byte_of_Z (z : Z) : ascii := ascii_of_N (Z.to_N z).

(** [string(r)] for a rune: the UTF-8 encoding of the code point, and the
    encoding of U+FFFD for values that are not valid code points. *)
Definition string_of_rune (r : rune) : string :=
  if (r <? 0) || (1114111 <? r) || ((55296 <=? r) && (r <=? 57343)) then
    String (byte_of_Z 239) (String (byte_of_Z 191) (String (byte_of_Z 189) EmptyString))
  else if r <? 128 then
    String (byte_of_Z r) EmptyString
  else if r <? 2048 then
    String (byte_of_Z (Z.lor 192 (Z.shiftr r 6)))
      (String (byte_of_Z (Z.lor 128 (Z.land r 63))) EmptyString)
  else if r <? 65536 then
    String (byte_of_Z (Z.lor 224 (Z.shiftr r 12)))
      (String (byte_of_Z (Z.lor 128 (Z.land (Z.shiftr r 6) 63)))
         (String (byte_of_Z (Z.lor 128 (Z.land r 63))) EmptyString))
  else
    String (byte_of_Z (Z.lor 240 (Z.shiftr r 18)))
      (String (byte_of_Z (Z.lor 128 (Z.land (Z.shiftr r 12) 63)))
         (String (byte_of_Z (Z.lor 128 (Z.land (Z.shiftr r 6) 63)))
            (String (byte_of_Z (Z.lor 128 (Z.land r 63))) EmptyString))).

(** [strings.TrimLeft], [strings.TrimRight] and [strings.Trim] for a
    cutset of one-byte characters, given as a test on bytes. *)
Fixpoint TrimLeft (cut : ascii -> bool) (s : string) : string :=
  match s with
  | EmptyString => EmptyString
  | String c rest => if cut c then TrimLeft cut rest else s
  end.

Fixpoint TrimRight (cut : ascii -> bool) (s : string) : string :=
  match s with
  | EmptyString => EmptyString
  | String c rest =>
      match TrimRight cut rest with
      | EmptyString => if cut c then EmptyString else String c EmptyString
      | kept => String c kept
      end
  end.

Definition Trim (cut : ascii -> bool) (s : string) : string :=
  TrimRight cut (TrimLeft cut s).

(** [strings.Split(s, sep)] for a separator of one byte: the pieces
    between the separators, one more than there are separators. *)
Fixpoint Split (sep : ascii) (s : string) : list string :=
  match s with
  | EmptyString => [EmptyString]
  | String c rest =>
      if Ascii.eqb c sep then EmptyString :: Split sep rest
      else match Split sep rest with
           | piece :: pieces => String c piece :: pieces
           | [] => [String c EmptyString]
           end
  end.

(** [strings.Index(s, sep)] for a separator of one byte: the position of
    its first occurrence, [None] for the -1 of a string without it. *)
Fixpoint IndexByte (sep : ascii) (s : string) : option nat :=
  match s with
  | EmptyString => None
  | String c rest =>
      if Ascii.eqb c sep then Some 0%nat else S <$> IndexByte sep rest
  end.

(** The text [%v] prints for an [int]: its decimal digits, after a minus
    sign when it is negative. *)
Definition formatInt (n : Z) : string := NilZero.string_of_int (Z.to_int n).

(** The number a non-empty run of decimal digits spells; [None] for the
    empty string and for a string with any other character. *)
Definition digitsValue (digits : string) : option Z :=
  match digits with
  | EmptyString => None
  | _ => Z.of_uint <$> NilEmpty.uint_of_string digits
  end.

(** The value [strconv.Atoi] returns, its error dropped: the number for an
    optional sign and decimal digits, brought to the nearest 64-bit value
    when it is out of range, and 0 for anything else. *)
Definition Atoi (s : string) : Z :=
  match s with
  | String "-" digits =>
      match digitsValue digits with
      | Some v => Z.max (- 2 ^ 63) (- v)
      | None => 0
      end
  | String "+" digits =>
      match digitsValue digits with
      | Some v => Z.min (2 ^ 63 - 1) v
      | None => 0
      end
  | _ =>
      match digitsValue s with
      | Some v => Z.min (2 ^ 63 - 1) v
      | None => 0
      end
  end.

(** A track as the program sees it: what the backend reports about it. *)
Record Track := {
  trackName : string;
  trackArtist : string;
  trackDuration : string;
  trackAvailable : bool
}.

(** Sample tracks, and sample backends: one whose loads all fail, one
    whose loads all succeed; searches that do nothing. *)
Definition song : Track :=
  {| trackName := "Song"; trackArtist := "Band"; trackDuration := "3m0s";
     trackAvailable := true |}.
Definition goneSong : Track :=
  {| trackName := "Gone"; trackArtist := "Band"; trackDuration := "3m0s";
     trackAvailable := false |}.

(** ** Running code that may stop the process

    A Go function over package or receiver state [S] that performs
    actions [E] on its collaborators either returns ([Ok]), ends the
    process ([Exit], as [log.Fatal] does) or panics ([Panic]). Each
    outcome carries the state reached and the actions performed, in
    order. *)
Inductive Res (S E A : Type) :=
| Ok (a : A) (s : S) (out : list E)
| Exit (s : S) (out : list E)
| Panic (s : S) (out : list E).
Arguments Ok {S E A} _ _ _.
Arguments Exit {S E A} _ _.
Arguments Panic {S E A} _ _.

Definition M (S E A : Type) : Type := S -> Res S E A.

#[export] Instance M_ret {S E} : MRet (M S E) := fun A a s => Ok a s [].

#[export] Instance M_bind {S E} : MBind (M S E) := fun A B f m s =>
  match m s with
  | Ok a s1 o1 =>
      match f a s1 with
      | Ok b s2 o2 => Ok b s2 (o1 ++ o2)
      | Exit s2 o2 => Exit s2 (o1 ++ o2)
      | Panic s2 o2 => Panic s2 (o1 ++ o2)
      end
  | Exit s1 o1 => Exit s1 o1
  | Panic s1 o1 => Panic s1 o1
  end.

Definition emit {S E} (e : E) : M S E unit := fun s => Ok tt s [e].
Definition get {S E} : M S E S := fun s => Ok s s [].
Definition modify {S E} (f : S -> S) : M S E unit := fun s => Ok tt (f s) [].
Definition exit {S E A} : M S E A := fun s => Exit s [].
Definition panic {S E A} : M S E A := fun s => Panic s [].

(** Unfolds the sequencing of commands in the goal. *)
Ltac run_cmd :=
  unfold mbind, M_bind, mret, M_ret, get, modify, emit, exit, panic; cbn.

(** An outcome preceded by earlier actions. *)
Definition after {S E A} (o : list E) (r : Res S E A) : Res S E A :=
  match r with
  | Ok a s o' => Ok a s (o ++ o')
  | Exit s o' => Exit s (o ++ o')
  | Panic s o' => Panic s (o ++ o')
  end.

(** The actions of an outcome. *)
Definition actions {S E A} (r : Res S E A) : list E :=
  match r with Ok _ _ o | Exit _ o | Panic _ o => o end.

(** Every action of the command satisfies [P], however it ends. *)
Definition emits {S E A} (P : E -> Prop) (m : M S E A) : Prop :=
  forall s, Forall P (actions (m s)).

(** ** The keystroke dispatcher ([keyPressed] and the binding table) *)

Module Keys.

(** The command names of the [const] block. *)
Definition PauseTrack : string := "PauseTrack".
Definition ShuffleMode : string := "ShuffleMode".
Definition ShuffleAllMode : string := "ShuffleAllMode".
Definition NextTrack : string := "NextTrack".
Definition ReplayTrack : string := "ReplayTrack".
Definition Search : string := "Search".
Definition Quit : string := "Quit".
Definition QueueTrack : string := "QueueTrack".
Definition QueuePlaylist : string := "QueuePlaylist".
Definition RepeatPlayingTrack : string := "RepeatPlayingTrack".
Definition RemoveTrack : string := "RemoveTrack".
Definition RemoveAllTracks : string := "RemoveAllTracks".
Definition GoToFirstLine : string := "GoToFirstLine".
Definition GoToLastLine : string := "GoToLastLine".
Definition PlaySelectedTrack : string := "PlaySelectedTrack".
Definition Up : string := "Up".
Definition Down : string := "Down".
Definition Left : string := "Left".
Definition Right : string := "Right".
Definition OpenCloseFolder : string := "OpenCloseFolder".
Definition ArtistAlbums : string := "ArtistAlbums".
Definition CreatePlaylist : string := "CreatePlaylist".

(** The handler functions that [keybindings] registers. A value of this
    type stands for the Go function value stored in the table. *)
Inductive Handler :=
| pauseTrackCommand | setShuffleMode | setShuffleAllMode | nextTrackCommand
| replayTrackCommand | enableSearchInputCommand | repeatPlayingTrackCommand
| quit | goToFirstLineCommand | goToLastLineCommand | cursorUp | cursorDown
| removeTrackCommand | removeAllTracksCommand | queueTrackCommand
| queuePlaylistCommand | playSelectedTrack | mainNextViewLeft | nextView
| mainNextViewRight | openCloseFolderCommand | artistAlbums
| enableCreatePlaylistCommand.

#[export] Instance Handler_eq_dec : EqDecision Handler.
Proof. solve_decision. Defined.

Record KeyEntry := { Key : string; Command : string }.

Record Keyboard := {
  ConfiguredKeys : gmap string (list string);
  UsedFunctions : gmap string bool;
  SequentialKeys : gmap string Handler
}.

(** [keyboard.UsedFunctions[c]]: a missing key reads as [false]. *)
Definition isUsed (kb : Keyboard) (c : string) : bool :=
  default false (UsedFunctions kb !! c).

Definition addKey (key command : string) (kb : Keyboard) : Keyboard :=
  {| ConfiguredKeys :=
       <[key := default [] (ConfiguredKeys kb !! key) ++ [command]]> (ConfiguredKeys kb);
     UsedFunctions := <[command := true]> (UsedFunctions kb);
     SequentialKeys := SequentialKeys kb |}.

(** [if !keyboard.UsedFunctions[c] { addKey(k1, c); addKey(k2, c) ... }] *)
Definition unlessUsed (c : string) (keys : list string) (kb : Keyboard) : Keyboard :=
  if isUsed kb c then kb else foldl (fun k key => addKey key c k) kb keys.

Definition defaultValues (kb : Keyboard) : Keyboard :=
  foldl (fun k '(c, keys) => unlessUsed c keys k) kb
    [ (PauseTrack, ["p"]); (ShuffleMode, ["s"]); (ShuffleAllMode, ["S"]);
      (NextTrack, [">"]); (ReplayTrack, ["<"]); (Search, ["/"]); (Quit, ["q"]);
      (QueueTrack, ["u"]); (QueuePlaylist, ["u"]); (RepeatPlayingTrack, ["r"]);
      (RemoveTrack, ["dd"]); (RemoveAllTracks, ["D"]); (GoToFirstLine, ["gg"]);
      (GoToLastLine, ["G"]); (PlaySelectedTrack, ["<space>"; "<enter>"]);
      (Up, ["<up>"; "k"]); (Down, ["<down>"; "j"]); (Left, ["<left>"; "h"]);
      (Right, ["<right>"; "l"]); (OpenCloseFolder, ["<space>"]);
      (ArtistAlbums, ["i"]); (CreatePlaylist, ["c"]) ]%string.

(** [loadKeyFunctions], given the entries decoded from the key-mapping
    file (the empty list when there is no file or it does not parse). *)
Definition loadKeyFunctions (fileContent : list KeyEntry) (kb : Keyboard) : Keyboard :=
  foldl (fun k e => addKey (Key e) (Command e) k) kb fileContent.

Section Bindings.

(** The view names and the [gocui] key codes are declared outside the
    files modelled here. *)
Variables VIEW_PLAYLISTS VIEW_TRACKS VIEW_QUEUE : string.
Variables KeyEnter KeySpace KeyArrowUp KeyArrowDown KeyArrowLeft KeyArrowRight : rune.

Definition translateKey (key : string) : string :=
  if decide (key = "<enter>"%string) then string_of_rune KeyEnter
  else if decide (key = "<space>"%string) then string_of_rune KeySpace
  else if decide (key = "<up>"%string) then string_of_rune KeyArrowUp
  else if decide (key = "<down>"%string) then string_of_rune KeyArrowDown
  else if decide (key = "<left>"%string) then string_of_rune KeyArrowLeft
  else if decide (key = "<right>"%string) then string_of_rune KeyArrowRight
  else key.

Definition setSequential (k : string) (h : Handler) (kb : Keyboard) : Keyboard :=
  {| ConfiguredKeys := ConfiguredKeys kb;
     UsedFunctions := UsedFunctions kb;
     SequentialKeys := <[k := h]> (SequentialKeys kb) |}.

(** The body of the inner loop of [configureKey] for one command [c] of
    one configured key. *)
Definition bindOne (handler : Handler) (command view key c : string)
    (kb : Keyboard) : Keyboard :=
  if decide (c = command) then
    if decide (view = ""%string) then
      setSequential (VIEW_TRACKS +:+ " " +:+ key) handler
        (setSequential (VIEW_QUEUE +:+ " " +:+ key) handler
           (setSequential (VIEW_PLAYLISTS +:+ " " +:+ key) handler kb))
    else setSequential (view +:+ " " +:+ key) handler kb
  else kb.

(** [configureKey]: the range over [ConfiguredKeys] visits the entries in
    the order of [map_to_list]. *)
Definition configureKey (handler : Handler) (command view : string)
    (kb : Keyboard) : Keyboard :=
  foldl (fun k '(key, commands) =>
           foldl (fun k' c => bindOne handler command view (translateKey key) c k')
             k commands)
    kb (map_to_list (ConfiguredKeys kb)).

Definition perView (view : string) (kb : Keyboard) : Keyboard :=
  foldl (fun k '(h, c) => configureKey h c view k) kb
    [ (pauseTrackCommand, PauseTrack); (setShuffleMode, ShuffleMode);
      (setShuffleAllMode, ShuffleAllMode); (nextTrackCommand, NextTrack);
      (replayTrackCommand, ReplayTrack); (enableSearchInputCommand, Search);
      (repeatPlayingTrackCommand, RepeatPlayingTrack); (quit, Quit);
      (goToFirstLineCommand, GoToFirstLine); (goToLastLineCommand, GoToLastLine);
      (cursorUp, Up); (cursorDown, Down); (removeTrackCommand, RemoveTrack);
      (removeAllTracksCommand, RemoveAllTracks) ].

(** The part of [keybindings] that fills [keyboard.SequentialKeys]. *)
Definition keybindings (fileContent : list KeyEntry) : Keyboard :=
  let kb := {| ConfiguredKeys := ∅; UsedFunctions := ∅; SequentialKeys := ∅ |} in
  let kb := defaultValues (loadKeyFunctions fileContent kb) in
  let kb := foldl (fun k view => perView view k) kb
              [VIEW_TRACKS; VIEW_PLAYLISTS; VIEW_QUEUE] in
  foldl (fun k '(h, c, view) => configureKey h c view k) kb
    [ (queueTrackCommand, QueueTrack, VIEW_TRACKS);
      (queuePlaylistCommand, QueuePlaylist, VIEW_PLAYLISTS);
      (playSelectedTrack, PlaySelectedTrack, VIEW_TRACKS);
      (mainNextViewLeft, Left, VIEW_TRACKS);
      (nextView, Left, VIEW_QUEUE);
      (nextView, Right, VIEW_PLAYLISTS);
      (mainNextViewRight, Right, VIEW_TRACKS);
      (openCloseFolderCommand, OpenCloseFolder, VIEW_PLAYLISTS);
      (artistAlbums, ArtistAlbums, VIEW_TRACKS);
      (enableCreatePlaylistCommand, CreatePlaylist, VIEW_QUEUE) ].

End Bindings.

(** *** The dispatcher state

    [multipleKeysBuffer] and [multipleKeysNumber] are the package
    variables of the same names. [world] is everything else the handlers
    act on (queue, playlists, views, player). Two fields only observe the
    run: [invoked] records, in order, each handler called through
    [handler(g, v)], and [peak] is the greatest length the buffer has had
    since start-up. *)
Record Dispatcher (W : Type) := {
  multipleKeysBuffer : list rune;
  multipleKeysNumber : Z;
  world : W;
  invoked : list Handler;
  peak : nat
}.
Arguments multipleKeysBuffer {W} _.
Arguments multipleKeysNumber {W} _.
Arguments world {W} _.
Arguments invoked {W} _.
Arguments peak {W} _.

(** Modelled from the spec: [getOffsetFromTypedNumbers], which the
    handlers call and which is declared outside the files modelled here.
    The counter is the repeat count, and the count is 1 when no digits
    were typed (the counter is then 0). *)
Definition getOffsetFromTypedNumbers (counter : Z) : Z :=
  if counter =? 0 then 1 else counter.

(** The update of the Repeat Counter in the words of the spec, over the
    integers: [counter == 0 ? digit : counter*10 + digit]. *)
Definition counterStep (counter digit : Z) : Z :=
  if counter =? 0 then digit else counter * 10 + digit.

Section Dispatch.

Context {W : Type}.

(** What a handler does when called in the view named [name]: it may read
    the repeat counter, acts on the world and returns an error or [nil]. *)
Variable run : Handler -> string -> Z -> W -> W * error.

Variable keyboard : Keyboard.

(** An assignment to [multipleKeysBuffer]. *)
Definition setBuffer (b : list rune) (d : Dispatcher W) : Dispatcher W :=
  {| multipleKeysBuffer := b; multipleKeysNumber := multipleKeysNumber d;
     world := world d; invoked := invoked d;
     peak := Nat.max (peak d) (length b) |}.

(** [multipleKeysBuffer = append(multipleKeysBuffer, key)] *)
Definition appendKey (key : rune) (d : Dispatcher W) : Dispatcher W :=
  setBuffer (multipleKeysBuffer d ++ [key]) d.

(** The [keyCombination] computed from the buffer after the append (which
    leaves at least one key in it). *)
Definition keyCombination (buf : list rune) : string :=
  match buf with
  | [] => ""
  | [k0] => string_of_rune k0
  | k0 :: k1 :: _ => string_of_rune k0 +:+ string_of_rune k1
  end.

(** [err := handler(g, v); multipleKeysNumber = 0; return err] *)
Definition callHandler (h : Handler) (name : string) (d : Dispatcher W)
    : Dispatcher W * error :=
  let r := run h name (multipleKeysNumber d) (world d) in
  ({| multipleKeysBuffer := multipleKeysBuffer d; multipleKeysNumber := 0;
      world := fst r; invoked := invoked d ++ [h]; peak := peak d |}, snd r).

Equations keyPressed (key : rune) (name : string) (d : Dispatcher W)
    : Dispatcher W * error by wf (length (multipleKeysBuffer d)) lt :=
  keyPressed key name d
    with SequentialKeys keyboard
           !! (name +:+ " " +:+ keyCombination (multipleKeysBuffer (appendKey key d))) := {
    | Some handler => callHandler handler name (setBuffer [] (appendKey key d))
    | None with le_lt_dec 2 (length (multipleKeysBuffer (appendKey key d))) := {
      | left _ =>
          keyPressed (nth 1 (multipleKeysBuffer (appendKey key d)) 0) name
            (setBuffer [] (appendKey key d))
      | right _ => (appendKey key d, None) } }.
Next Obligation.
  rewrite length_app in *. simpl in *. lia.
Qed.

Definition multipleKeysNumberPressed (pressedNumber : Z) (d : Dispatcher W)
    : Dispatcher W * error :=
  ({| multipleKeysBuffer := multipleKeysBuffer d;
      multipleKeysNumber :=
        if multipleKeysNumber d =? 0 then pressedNumber
        else wrap64 (multipleKeysNumber d * 10 + pressedNumber);
      world := world d; invoked := invoked d; peak := peak d |}, None).

(** One keystroke as the registered closures route it: a digit goes to
    [multipleKeysNumberPressed], any other key to [keyPressed]. *)
Inductive Stroke := Digit (n : Z) | Char (key : rune).

Definition press (name : string) (k : Stroke) (d : Dispatcher W)
    : Dispatcher W * error :=
  match k with
  | Digit n => multipleKeysNumberPressed n d
  | Char key => keyPressed key name d
  end.

(** A run of keystrokes in one view; the errors returned are dropped. *)
Definition typed (name : string) (ks : list Stroke) (d : Dispatcher W) : Dispatcher W :=
  foldl (fun st k => fst (press name k st)) d ks.

End Dispatch.

(** The state [keybindings] leaves: an empty buffer, a zero counter. *)
Definition idle {W} (w : W) : Dispatcher W :=
  {| multipleKeysBuffer := []; multipleKeysNumber := 0; world := w;
     invoked := []; peak := 0 |}.

(** The table built when there is no key-mapping file, at the view names
    of the layout and the key codes of the terminal library. *)
Definition defaultKeyboard : Keyboard :=
  keybindings "side" "main" "queue" 13 32 65517 65516 65515 65514 [].

(** A world that only remembers the repeat counter each handler saw. *)
Definition logRun (h : Handler) (name : string) (counter : Z) (w : list Z)
    : list Z * error := (w ++ [counter], None).

(** [keyboard.ConfiguredKeys[key]]: a missing key reads as no commands. *)
Definition commandsOn (kb : Keyboard) (key : string) : list string :=
  default [] (ConfiguredKeys kb !! key).

(** The commands [defaultValues] provides keys for. *)
Definition allCommands : list string :=
  [ PauseTrack; ShuffleMode; ShuffleAllMode; NextTrack; ReplayTrack; Search;
    Quit; QueueTrack; QueuePlaylist; RepeatPlayingTrack; RemoveTrack;
    RemoveAllTracks; GoToFirstLine; GoToLastLine; PlaySelectedTrack; Up; Down;
    Left; Right; OpenCloseFolder; ArtistAlbums; CreatePlaylist ].

(** *** The status line as a prompt ([executeAction]) *)

(** The package variable [actionBeingExecuted] and whether the status
    view can be typed into. *)
Record Prompt := {
  actionBeingExecuted : string;
  editable : bool
}.

(** What the prompt commands do to the views and to the publisher. *)
Inductive PromptAction :=
| ClearStatusView
| FocusStatusView
| EnableSideView
| UpdateCurrentStatus
| PublishSearch (query : string)
| CreatePlaylistFromQueue (name : string).

Abbreviation PromptCmd := (M Prompt PromptAction).

(** The cutset [" \x00"] of [getTypedCommand]. *)
Definition isBlank (c : ascii) : bool :=
  Ascii.eqb c " " || Ascii.eqb c "000".

(** [getTypedCommand], given the first line of the status view. *)
Definition getTypedCommand (typed : string) : string := Trim isBlank typed.

Definition setEditable (canType : bool) : PromptCmd unit :=
  modify (fun s => {| actionBeingExecuted := actionBeingExecuted s;
                      editable := canType |}).

Definition setAction (action : string) : PromptCmd unit :=
  modify (fun s => {| actionBeingExecuted := action; editable := editable s |}).

(** The body of [enableSearchInputCommand]. *)
Definition enableSearchInput : PromptCmd error :=
  emit ClearStatusView ;; setEditable true ;; emit FocusStatusView ;;
  setAction Search ;; mret None.

(** The body of [enableCreatePlaylistCommand]. *)
Definition enableCreatePlaylist : PromptCmd error :=
  emit ClearStatusView ;; setEditable true ;; emit FocusStatusView ;;
  setAction CreatePlaylist ;; mret None.

(** The end of [searchCommand] and of [createPlaylistCommand]. *)
Definition leavePrompt : PromptCmd error :=
  emit EnableSideView ;; emit ClearStatusView ;; setEditable false ;;
  emit UpdateCurrentStatus ;; mret None.

Definition searchCommand (typed : string) : PromptCmd error :=
  (if String.eqb (getTypedCommand typed) "" then mret tt
   else emit (PublishSearch (getTypedCommand typed))) ;;
  leavePrompt.

Definition createPlaylistCommand (typed : string) : PromptCmd error :=
  (if String.eqb (getTypedCommand typed) "" then mret tt
   else emit (CreatePlaylistFromQueue (getTypedCommand typed))) ;;
  leavePrompt.

(** [executeAction], bound to Enter in the status view. *)
Definition executeAction (typed : string) : PromptCmd error :=
  s ← get;
  if String.eqb (actionBeingExecuted s) Search then searchCommand typed
  else if String.eqb (actionBeingExecuted s) CreatePlaylist
       then createPlaylistCommand typed
       else mret None.

End Keys.

(** ** The console interface: what plays next ([src/ui/cui.go]) *)

Module Ui.

Definition Playlist := list Track.

(** Modelled from the spec: the mode of the Playlist Collection, which
    [state.isAllRandomMode()] and [state.isRandomMode()] test; [UiState]
    is declared outside the files modelled here. Exactly one mode is
    active. *)
Inductive Mode := Sequential | Shuffle | ShuffleAll.

(** [UiState], by the fields the code reads and writes. *)
Record UiState := {
  currentPlaylist : string;
  currentIndexTrack : Z;
  currentMessage : string;
  mode : Mode
}.

(** The package variables [queue], [state], [playlists], the field
    [gui.currentTrack], and the random source. [playlists] lists the
    entries of the map in the order a [range] over it visits them; the
    names are distinct. [rand] is the sequence of raw draws of the random
    source and [drawn] how many were taken. *)
Record Gui := {
  queue : list Track;
  state : UiState;
  playlists : list (string * Playlist);
  currentTrack : option Track;
  rand : nat -> Z;
  drawn : nat
}.

(** What the interface does to the event bus and to the views. [QueuePop]
    records a call of [queue.Pop()]. *)
Inductive Action :=
| EventsPlay (track : option Track)
| QueuePop
| QueueViewUpdated
| StatusShown (message : string).

Abbreviation Cmd := (M Gui Action).

(** Modelled from the spec: [events.Play], of the [events] package
    declared outside the files modelled here. The send hands the track to
    the bus and returns. *)
Definition publish (signal : Action) : Cmd unit := emit signal.

Definition setState (f : UiState -> UiState) : Cmd unit :=
  modify (fun g => {| queue := queue g; state := f (state g);
                      playlists := playlists g; currentTrack := currentTrack g;
                      rand := rand g; drawn := drawn g |}).

Definition setCursor (name : string) (index : Z) : Cmd unit :=
  setState (fun st => {| currentPlaylist := name; currentIndexTrack := index;
                         currentMessage := currentMessage st; mode := mode st |}).

Definition setIndex (index : Z) : Cmd unit :=
  setState (fun st => {| currentPlaylist := currentPlaylist st;
                         currentIndexTrack := index;
                         currentMessage := currentMessage st; mode := mode st |}).

(** [gui.updateStatus]: the text written to the status view also carries
    the mode prefix of [state.getModeAsString()]. *)
Definition updateStatus (message : string) : Cmd unit :=
  setState (fun st => {| currentPlaylist := currentPlaylist st;
                         currentIndexTrack := currentIndexTrack st;
                         currentMessage := message; mode := mode st |}) ;;
  emit (StatusShown message).

(** [rand.Intn(n)]: panics unless [n > 0], and otherwise gives a value of
    [0 .. n-1]; any of them can come out, depending on the draw. *)
Definition Intn (n : Z) : Cmd Z := fun g =>
  if n <=? 0 then Panic g []
  else Ok (rand g (drawn g) mod n)
          {| queue := queue g; state := state g; playlists := playlists g;
             currentTrack := currentTrack g; rand := rand g; drawn := S (drawn g) |} [].

(** [playlists[name]]: [nil] when the name is not a key. *)
Fixpoint lookupPlaylist (entries : list (string * Playlist)) (name : string)
    : option Playlist :=
  match entries with
  | [] => None
  | (k, v) :: rest => if decide (k = name) then Some v else lookupPlaylist rest name
  end.

(** [playlist.Tracks()]; on a [nil] playlist the call panics. *)
Definition Tracks (playlist : option Playlist) : Cmd Z :=
  match playlist with
  | None => panic
  | Some l => mret (Z.of_nat (length l))
  end.

(** [playlist.Track(i).Track()]; the backend library panics when the
    index is out of range. *)
Definition TrackAt (playlist : option Playlist) (i : Z) : Cmd Track :=
  match playlist with
  | None => panic
  | Some l =>
      if (i <? 0) || (Z.of_nat (length l) <=? i) then panic
      else match l !! Z.to_nat i with
           | Some t => mret t
           | None => panic
           end
  end.

(** [gui.play] *)
Definition play (track : option Track) : Cmd unit :=
  modify (fun g => {| queue := queue g; state := state g; playlists := playlists g;
                      currentTrack := track; rand := rand g; drawn := drawn g |}) ;;
  publish (EventsPlay track).

(** [getNextTrack]; no addition or subtraction here can leave the range
    of [int], since a track count is not negative. *)
Definition getNextTrack (playlist : option Playlist) : Cmd Z :=
  n ← Tracks playlist;
  g ← get;
  if n - 1 <=? currentIndexTrack (state g) then mret 0
  else mret (currentIndexTrack (state g) + 1).

Definition getRandomNextTrack (playlist : option Playlist) : Cmd Z :=
  n ← Tracks playlist; Intn n.

(** The [range] loop of [getRandomNextPlaylistAndTrack]: the entry met
    when [count] reaches [index], or the zero values when the loop runs
    out. *)
Fixpoint pickEntry (entries : list (string * Playlist)) (index count : Z)
    : string * option Playlist :=
  match entries with
  | [] => (""%string, None)
  | (key, value) :: rest =>
      if index =? count then (key, Some value) else pickEntry rest index (count + 1)
  end.

Definition getRandomNextPlaylistAndTrack : Cmd (string * Z) :=
  g ← get;
  index ← Intn (Z.of_nat (length (playlists g)));
  let picked := pickEntry (playlists g) index 0 in
  n ← Tracks (snd picked);
  i ← Intn n;
  mret (fst picked, i).

Definition playNextFromPlaylist : Cmd unit :=
  g ← get;
  let playlist := lookupPlaylist (playlists g) (currentPlaylist (state g)) in
  playlist ←
    match mode (state g) with
    | ShuffleAll =>
        r ← getRandomNextPlaylistAndTrack;
        setCursor (fst r) (snd r) ;;
        g' ← get;
        mret (lookupPlaylist (playlists g') (currentPlaylist (state g')))
    | Shuffle =>
        i ← getRandomNextTrack playlist; setIndex i ;; mret playlist
    | Sequential =>
        i ← getNextTrack playlist; setIndex i ;; mret playlist
    end;
  g' ← get;
  track ← TrackAt playlist (currentIndexTrack (state g'));
  play (Some track).

(** Modelled from the spec: [queue.isEmpty()]; the [Queue] type is
    declared outside the files modelled here. The queue is an ordered
    sequence of tracks, empty when it has none. *)
Definition isEmpty (q : list Track) : bool :=
  match q with [] => true | _ => false end.

(** Modelled from the spec: [queue.Pop()], declared with [Queue]. It
    removes and returns the front element, and returns the empty sentinel
    ([nil]) on an empty queue. *)
Definition Pop : Cmd (option Track) :=
  emit QueuePop ;;
  g ← get;
  match queue g with
  | [] => mret None
  | t :: rest =>
      modify (fun g => {| queue := rest; state := state g; playlists := playlists g;
                          currentTrack := currentTrack g; rand := rand g;
                          drawn := drawn g |}) ;;
      mret (Some t)
  end.

Definition updateQueueView : Cmd unit := emit QueueViewUpdated.

Definition playNextFromQueue : Cmd unit :=
  t ← Pop; play t ;; updateQueueView.

Section PlayNext.

(** [state.hasPlaylistSelected()] is declared with [UiState], outside the
    files modelled here. *)
Variable hasPlaylistSelected : UiState -> bool.

Definition playNext : Cmd error :=
  g ← get;
  (if negb (isEmpty (queue g)) then playNextFromQueue
   else if hasPlaylistSelected (state g) then playNextFromPlaylist
   else mret tt) ;;
  mret None.

End PlayNext.

Definition notPop (e : Action) : Prop := e <> QueuePop.

(** The random source moved on and nothing else changed. *)
Definition onlyDrew (g g' : Gui) : Prop :=
  queue g' = queue g /\ state g' = state g /\ playlists g' = playlists g
  /\ currentTrack g' = currentTrack g.

(** What it means that [g'] and the actions [out] are the playing of the
    track that the selector of the active mode chose in [g]: the cursor of
    [g'] is the selector's answer, the track under it in its playlist is
    the current track and the one track sent to the player, and the queue
    is as it was. *)
Definition playsSelection (g g' : Gui) (out : list Action) : Prop :=
  exists pl t,
    lookupPlaylist (playlists g') (currentPlaylist (state g')) = Some pl
    /\ pl !! Z.to_nat (currentIndexTrack (state g')) = Some t
    /\ currentTrack g' = Some t
    /\ out = [EventsPlay (Some t)]
    /\ queue g' = queue g
    /\ match mode (state g) with
       | Sequential =>
           currentPlaylist (state g') = currentPlaylist (state g)
           /\ getNextTrack (Some pl) g = Ok (currentIndexTrack (state g')) g []
       | Shuffle =>
           currentPlaylist (state g') = currentPlaylist (state g)
           /\ exists g1, getRandomNextTrack (Some pl) g
                         = Ok (currentIndexTrack (state g')) g1 []
       | ShuffleAll =>
           exists g1, getRandomNextPlaylistAndTrack g
                      = Ok (currentPlaylist (state g'), currentIndexTrack (state g')) g1 []
       end.

(** A collection with one empty and one non-empty playlist, a source
    whose draws are all zero, and a cursor on the non-empty playlist. *)
Definition twoPlaylists : list (string * Playlist) :=
  [("empty"%string, []); ("full"%string, [song; goneSong])].

Definition sampleGui (m : Mode) (index : Z) (q : list Track) : Gui :=
  {| queue := q;
     state := {| currentPlaylist := "full"; currentIndexTrack := index;
                 currentMessage := ""; mode := m |};
     playlists := twoPlaylists; currentTrack := None;
     rand := fun _ => 0; drawn := 0 |}.

Definition selected (st : UiState) : bool :=
  negb (String.eqb (currentPlaylist st) "").

(** *** The track under the cursor ([getCurrentSelectedTrack]) *)

(** The interface with the cursor on [index] of the playlist [name]. *)
Definition cursorAt (name : string) (index : Z) (g : Gui) : Gui :=
  {| queue := queue g;
     state := {| currentPlaylist := name; currentIndexTrack := index;
                 currentMessage := currentMessage (state g);
                 mode := mode (state g) |};
     playlists := playlists g; currentTrack := currentTrack g;
     rand := rand g; drawn := drawn g |}.

(** The text [updateTracksView] writes for the track at [index]. *)
Definition trackLine (index : Z) (track : Track) : string :=
  formatInt (index + 1) +:+ ". " +:+ trackArtist track +:+ " - " +:+ trackName track.

Definition setCurrentPlaylist (name : string) : Cmd unit :=
  setState (fun st => {| currentPlaylist := name;
                         currentIndexTrack := currentIndexTrack st;
                         currentMessage := currentMessage st; mode := mode st |}).

(** [getCurrentSelectedTrack], given the lines under the cursor of the
    playlists view and of the tracks view (the empty string for a view
    without a line there). Slicing up to the -1 of a line without a dot
    panics. *)
Definition getCurrentSelectedTrack (selectedPlaylist selectedTrack : string)
    : Cmd (option Track) :=
  setCurrentPlaylist selectedPlaylist ;;
  g ← get;
  match lookupPlaylist (playlists g) (currentPlaylist (state g)) with
  | None => mret None
  | Some playlist =>
      match IndexByte "." selectedTrack with
      | None => panic
      | Some n =>
          let converted := Atoi (substring 0 n selectedTrack) in
          setIndex (wrap64 (converted - 1)) ;;
          g' ← get;
          track ← TrackAt (Some playlist) (currentIndexTrack (state g'));
          mret (Some track)
      end
  end.

(** *** The event loop of the interface ([StartConsoleUserInterface]) *)

(** What the goroutine started by [StartConsoleUserInterface] selects
    on. *)
Inductive Signal :=
| Status (message : string)
| PlayTokenLost
| NextPlay.

Section EventLoop.

Variable hasPlaylistSelected : UiState -> bool.

(** One round of the [select]; the error [playNext] returns is dropped. *)
Definition handle (sig : Signal) : Cmd unit :=
  match sig with
  | Status message => updateStatus message
  | PlayTokenLost => updateStatus "Play token lost"
  | NextPlay => playNext hasPlaylistSelected ;; mret tt
  end.

(** The [for] over the signals that arrive, in the order the [select]
    takes them. *)
Fixpoint eventLoop (arrivals : list Signal) : Cmd unit :=
  match arrivals with
  | [] => mret tt
  | sig :: rest => handle sig ;; eventLoop rest
  end.

(** [playNext] called [n] times in a row, as on [n] end-of-track
    signals. *)
Definition nextTimes (n : nat) : Cmd unit :=
  eventLoop (replicate n NextPlay).

End EventLoop.

(** The same interface with another random source. *)
Definition withRand (r : nat -> Z) (g : Gui) : Gui :=
  {| queue := queue g; state := state g; playlists := playlists g;
     currentTrack := currentTrack g; rand := r; drawn := drawn g |}.

(** The interface after [track] at [index] of the selected playlist was
    played. *)
Definition playedAt (index : Z) (track : Track) (g : Gui) : Gui :=
  {| queue := queue g;
     state := {| currentPlaylist := currentPlaylist (state g);
                 currentIndexTrack := index;
                 currentMessage := currentMessage (state g);
                 mode := mode (state g) |};
     playlists := playlists g; currentTrack := Some track;
     rand := rand g; drawn := drawn g |}.

End Ui.

(** ** The backend event loop ([src/spotify/spotify.go]) *)

Module Player.

(** The fields of [Spotify] that change while the loop runs. *)
Record Spotify := {
  currentTrack : option Track;
  paused : bool
}.

(** Calls on the event bus ([Ev...]), on the session and its player, on
    the cache and on the logger. *)
Inductive Action :=
| EvNextPlay
| EvPlayTokenLost
| EvSetStatus (message : string)
| EvShutdown
| SessionLogout
| DeleteCache
| PlayerLoad (track : Track)
| PlayerPlay
| PlayerPause
| LogFatal (err : string).

Abbreviation Cmd := (M Spotify Action).

(** What arrives on the channels the loop selects on. *)
Inductive Signal :=
| EndOfTrack
| PlayTokenLost
| Play (track : option Track)
| Pause
| Replay
| Shutdown
| Search (query : string)
| GetArtistTopTracks (artist : string).

(** Modelled from the spec: the sends of the [events] package
    ([SetStatus], [NextPlay], [PlayTokenLost], [Shutdown]), which is
    declared outside the files modelled here. A send hands the signal to
    the bus and returns; it does not block the sender. *)
Definition publish (signal : Action) : Cmd unit := emit signal.

Definition setCurrentTrack (track : option Track) : Cmd unit :=
  modify (fun s => {| currentTrack := track; paused := paused s |}).

Definition setPaused (b : bool) : Cmd unit :=
  modify (fun s => {| currentTrack := currentTrack s; paused := b |}).

(** [updateStatus]; the methods of a [nil] track panic. *)
Definition updateStatus (status : string) (track : option Track) : Cmd unit :=
  setCurrentTrack track ;;
  match track with
  | None => panic
  | Some t =>
      publish (EvSetStatus (status +:+ ": " +:+ trackArtist t +:+ " - " +:+ trackName t
                         +:+ " [" +:+ trackDuration t +:+ "]"))
  end.

Section Backend.

(** The answer of [player.Load(track)]. *)
Variable load : Track -> error.

(** [search] and [artistTopTrack] are declared outside the files modelled
    here. *)
Variable search : string -> Cmd unit.
Variable artistTopTrack : string -> Cmd unit.

Definition play (track : option Track) : Cmd unit :=
  match track with
  | None => panic
  | Some t =>
      if negb (trackAvailable t) then publish (EvSetStatus "Not available")
      else
        emit (PlayerLoad t) ;;
        match load t with
        | Some err => emit (LogFatal err) ;; exit
        | None => emit PlayerPlay ;; updateStatus "Playing" (Some t)
        end
  end.

Definition playCurrentTrack : Cmd unit :=
  s ← get; play (currentTrack s) ;; setPaused false.

Definition pauseCurrentTrack : Cmd unit :=
  emit PlayerPause ;;
  s ← get; updateStatus "Paused" (currentTrack s) ;;
  setPaused true.

Definition isPausedOrPlaying (s : Spotify) : bool :=
  match currentTrack s with Some _ => true | None => false end.

Definition pause : Cmd unit :=
  s ← get;
  if isPausedOrPlaying s then
    if paused s then playCurrentTrack else pauseCurrentTrack
  else mret tt.

(** [shutdownSpotify]: log out, delete the cache, publish the shutdown. *)
Definition shutdownSpotify : Cmd unit :=
  emit SessionLogout ;; emit DeleteCache ;; publish EvShutdown.

(** One round of the [select] of [waitForEvents]. *)
Definition dispatch (sig : Signal) : Cmd unit :=
  match sig with
  | EndOfTrack => publish EvNextPlay
  | PlayTokenLost => publish EvPlayTokenLost
  | Play track => play track
  | Pause => pause
  | Replay => playCurrentTrack
  | Shutdown => shutdownSpotify
  | Search query => search query
  | GetArtistTopTracks artist => artistTopTrack artist
  end.

(** [waitForEvents] over the signals that arrive, in the order the
    [select] takes them. The [for] has no way out: [Ok] means that the
    loop is waiting for the next signal. *)
Fixpoint waitForEvents (arrivals : list Signal) : Cmd unit :=
  match arrivals with
  | [] => mret tt
  | sig :: rest => dispatch sig ;; waitForEvents rest
  end.

End Backend.

Definition failingLoad (t : Track) : error := Some "load failed"%string.
Definition workingLoad (t : Track) : error := None.
Definition ignore (s : string) : Cmd unit := mret tt.

(** *** The playlist filter and the playlists handed to the interface *)

Definition isSpace (c : ascii) : bool := Ascii.eqb c " ".

(** [setPlaylistFilter], on the field [playlistFilter] ([None] is the
    [nil] slice). *)
Definition setPlaylistFilter (playlistFilter : string) (old : option (list string))
    : option (list string) :=
  if String.eqb playlistFilter "" then old
  else Some (map (Trim isSpace) (Split "," playlistFilter)).

Definition isOnFilter (filter : option (list string)) (playlist : string) : bool :=
  match filter with
  | None => true
  | Some names => existsb (String.eqb playlist) names
  end.

(** The kinds of entry of the backend's playlist container. *)
Inductive PlaylistType :=
| PlaylistTypePlaylist
| PlaylistTypeStartFolder
| PlaylistTypeEndFolder
| PlaylistTypePlaceholder.

(** An entry of the container: its type, and the playlist with its
    name. *)
Record Entry := {
  entryType : PlaylistType;
  entryName : string;
  entryPlaylist : Ui.Playlist
}.

Definition isPlaylist (t : PlaylistType) : bool :=
  match t with PlaylistTypePlaylist => true | _ => false end.

(** The map that [initPlaylist] builds and publishes. *)
Definition initPlaylist (filter : option (list string)) (container : list Entry)
    : gmap string Ui.Playlist :=
  foldl (fun playlists e =>
           if isPlaylist (entryType e) && isOnFilter filter (entryName e)
           then <[entryName e := entryPlaylist e]> playlists
           else playlists)
    ∅ container.

(** *** Waiting for the login ([waitForSuccessfulConnectionStateUpdates]) *)

(** What the wait selects on: a connection-state update, with what
    [isLoggedIn()] answers when it is taken, or the timeout. *)
Inductive LoginSignal :=
| ConnectionState (loggedIn : bool)
| Timeout.

(** The loop of the complete earlier version over the signals that
    arrive: [Some b] when it returns [b], [None] while it still waits. *)
Fixpoint waitForSuccessfulConnectionStateUpdates (arrivals : list LoginSignal)
    : option bool :=
  match arrivals with
  | [] => None
  | ConnectionState true :: _ => Some true
  | ConnectionState false :: rest => waitForSuccessfulConnectionStateUpdates rest
  | Timeout :: _ => Some false
  end.

(** The loop of [spotify/spotify.go], which returns on the first
    signal. *)
Definition waitForSuccessfulConnectionStateUpdates' (arrivals : list LoginSignal)
    : option bool :=
  match arrivals with
  | [] => None
  | ConnectionState loggedIn :: _ => Some loggedIn
  | Timeout :: _ => Some false
  end.

End Player.

(** * Properties *)

Module KeysFacts.

Import Keys.

(** *** The three ways out of [keyPressed] *)

Section DispatchFacts.

Context {W : Type}.
Variable run : Handler -> string -> Z -> W -> W * error.
Variable keyboard : Keyboard.

Local Abbreviation bound name buf :=
  (SequentialKeys keyboard !! (name +:+ " " +:+ keyCombination buf)).

Lemma keyPressed_match key name (d : Dispatcher W) h :
  bound name (multipleKeysBuffer d ++ [key]) = Some h ->
  keyPressed run keyboard key name d
  = callHandler run h name (setBuffer [] (appendKey key d)).
Proof.
  intros Hb. rewrite keyPressed_equation_1.
  change (multipleKeysBuffer (appendKey key d)) with (multipleKeysBuffer d ++ [key]).
  rewrite Hb. reflexivity.
Qed.

Lemma keyPressed_held key name (d : Dispatcher W) :
  bound name (multipleKeysBuffer d ++ [key]) = None ->
  multipleKeysBuffer d = [] ->
  keyPressed run keyboard key name d = (appendKey key d, None).
Proof.
  intros Hb He. rewrite keyPressed_equation_1.
  change (multipleKeysBuffer (appendKey key d)) with (multipleKeysBuffer d ++ [key]).
  rewrite Hb. cbn [keyPressed_unfold_clause_1].
  change (multipleKeysBuffer (appendKey key d)) with (multipleKeysBuffer d ++ [key]).
  destruct (le_lt_dec 2 (length (multipleKeysBuffer d ++ [key]))) as [Hle|Hlt];
    [exfalso|reflexivity].
  rewrite He in Hle. simpl in Hle. lia.
Qed.

Lemma keyPressed_fallback key name (d : Dispatcher W) :
  bound name (multipleKeysBuffer d ++ [key]) = None ->
  multipleKeysBuffer d <> [] ->
  keyPressed run keyboard key name d
  = keyPressed run keyboard (nth 1 (multipleKeysBuffer d ++ [key]) 0) name
      (setBuffer [] (appendKey key d)).
Proof.
  intros Hb Hne. rewrite keyPressed_equation_1.
  change (multipleKeysBuffer (appendKey key d)) with (multipleKeysBuffer d ++ [key]).
  rewrite Hb. cbn [keyPressed_unfold_clause_1].
  change (multipleKeysBuffer (appendKey key d)) with (multipleKeysBuffer d ++ [key]).
  destruct (le_lt_dec 2 (length (multipleKeysBuffer d ++ [key]))) as [Hle|Hlt];
    [reflexivity|exfalso].
  rewrite length_app in Hlt. simpl in Hlt.
  destruct (multipleKeysBuffer d); [congruence | simpl in Hlt; lia].
Qed.

End DispatchFacts.

Section DispatchProperties.

Context {W : Type}.
Variable run : Handler -> string -> Z -> W -> W * error.
Variable keyboard : Keyboard.

Local Abbreviation bound name buf :=
  (SequentialKeys keyboard !! (name +:+ " " +:+ keyCombination buf)).

(** The buffer length that [keyPressed] leaves, whatever it found. *)
Lemma keyPressed_buffer_short key name (d : Dispatcher W) :
  (length (multipleKeysBuffer (fst (keyPressed run keyboard key name d))) <= 1)%nat.
Proof.
  assert (Hempty : forall k (e : Dispatcher W), multipleKeysBuffer e = [] ->
    (length (multipleKeysBuffer (fst (keyPressed run keyboard k name e))) <= 1)%nat).
  { intros k e He. destruct (bound name (multipleKeysBuffer e ++ [k])) as [h|] eqn:Hb.
    - rewrite (keyPressed_match _ _ _ _ _ _ Hb). simpl. lia.
    - rewrite (keyPressed_held _ _ _ _ _ Hb He). simpl. rewrite He. simpl. lia. }
  destruct (bound name (multipleKeysBuffer d ++ [key])) as [h|] eqn:Hb.
  - rewrite (keyPressed_match _ _ _ _ _ _ Hb). simpl. lia.
  - destruct (multipleKeysBuffer d) as [|a rest] eqn:Hd.
    + apply Hempty. exact Hd.
    + rewrite keyPressed_fallback; [| rewrite Hd; exact Hb | rewrite Hd; discriminate].
      apply Hempty. reflexivity.
Qed.

(** The greatest buffer length seen after one more [keyPressed]. *)
Lemma keyPressed_peak key name (d : Dispatcher W) :
  peak (fst (keyPressed run keyboard key name d))
  = Nat.max (peak d) (S (length (multipleKeysBuffer d))).
Proof.
  assert (Hempty : forall k (e : Dispatcher W), multipleKeysBuffer e = [] ->
    peak (fst (keyPressed run keyboard k name e)) = Nat.max (peak e) 1).
  { intros k e He. destruct (bound name (multipleKeysBuffer e ++ [k])) as [h|] eqn:Hb.
    - rewrite (keyPressed_match _ _ _ _ _ _ Hb). simpl. rewrite He. simpl. lia.
    - rewrite (keyPressed_held _ _ _ _ _ Hb He). simpl. rewrite He. simpl. lia. }
  destruct (bound name (multipleKeysBuffer d ++ [key])) as [h|] eqn:Hb.
  - rewrite (keyPressed_match _ _ _ _ _ _ Hb). simpl. rewrite length_app. simpl. lia.
  - destruct (multipleKeysBuffer d) as [|a rest] eqn:Hd.
    + rewrite (Hempty _ _ Hd). reflexivity.
    + rewrite keyPressed_fallback; [| rewrite Hd; exact Hb | rewrite Hd; discriminate].
      rewrite Hempty by reflexivity. simpl. rewrite Hd. simpl. rewrite length_app.
      simpl. lia.
Qed.

(** [keyPressed] either calls one handler, on an emptied buffer and with
    the counter as it stood, or calls none and holds one key. *)
Lemma keyPressed_cases key name (d : Dispatcher W) :
  (exists h d0,
      keyPressed run keyboard key name d = callHandler run h name d0
      /\ multipleKeysBuffer d0 = [] /\ multipleKeysNumber d0 = multipleKeysNumber d
      /\ world d0 = world d /\ invoked d0 = invoked d)
  \/ (exists k, keyPressed run keyboard key name d
                 = ({| multipleKeysBuffer := [k];
                       multipleKeysNumber := multipleKeysNumber d;
                       world := world d; invoked := invoked d;
                       peak := Nat.max (peak d) (S (length (multipleKeysBuffer d))) |},
                    None)).
Proof.
  assert (Hempty : forall k (e : Dispatcher W), multipleKeysBuffer e = [] ->
    (exists h d0,
        keyPressed run keyboard k name e = callHandler run h name d0
        /\ multipleKeysBuffer d0 = [] /\ multipleKeysNumber d0 = multipleKeysNumber e
        /\ world d0 = world e /\ invoked d0 = invoked e)
    \/ keyPressed run keyboard k name e
        = ({| multipleKeysBuffer := [k]; multipleKeysNumber := multipleKeysNumber e;
              world := world e; invoked := invoked e;
              peak := Nat.max (peak e) 1 |}, None)).
  { intros k e He. destruct (bound name (multipleKeysBuffer e ++ [k])) as [h|] eqn:Hb.
    - left. exists h, (setBuffer [] (appendKey k e)).
      rewrite (keyPressed_match _ _ _ _ _ _ Hb). auto.
    - right. rewrite (keyPressed_held _ _ _ _ _ Hb He).
      unfold appendKey, setBuffer. rewrite He. reflexivity. }
  destruct (bound name (multipleKeysBuffer d ++ [key])) as [h|] eqn:Hb.
  - left. exists h, (setBuffer [] (appendKey key d)).
    rewrite (keyPressed_match _ _ _ _ _ _ Hb). auto.
  - destruct (multipleKeysBuffer d) as [|a rest] eqn:Hd.
    + destruct (Hempty key d Hd) as [Hc|Hc]; [left; exact Hc|].
      right. exists key. rewrite Hc. reflexivity.
    + rewrite keyPressed_fallback; [| rewrite Hd; exact Hb | rewrite Hd; discriminate].
      destruct (Hempty (nth 1 (multipleKeysBuffer d ++ [key]) 0)
                  (setBuffer [] (appendKey key d)) eq_refl) as [Hc|Hc].
      * left. exact Hc.
      * right. eexists. rewrite Hc. cbn. rewrite Hd, length_app. cbn.
        do 2 f_equal. lia.
Qed.

(** A call of a handler is the only way the record of calls changes; it
    leaves an empty buffer and a zero counter. *)
Lemma keyPressed_after_call key name (d : Dispatcher W) :
  invoked (fst (keyPressed run keyboard key name d)) <> invoked d ->
  multipleKeysBuffer (fst (keyPressed run keyboard key name d)) = []
  /\ multipleKeysNumber (fst (keyPressed run keyboard key name d)) = 0.
Proof.
  destruct (keyPressed_cases key name d) as [(h & d0 & -> & Hb & _)|[k ->]].
  - intros _. cbn. auto.
  - cbn. congruence.
Qed.

Lemma press_keeps_invariant name k (d : Dispatcher W) :
  (length (multipleKeysBuffer d) <= 1)%nat /\ (peak d <= 2)%nat ->
  (length (multipleKeysBuffer (fst (press run keyboard name k d))) <= 1)%nat
  /\ (peak (fst (press run keyboard name k d)) <= 2)%nat.
Proof.
  intros [Hb Hp]. destruct k as [n|key]; simpl.
  - split; assumption.
  - split; [apply keyPressed_buffer_short | rewrite keyPressed_peak; lia].
Qed.

Lemma typed_keeps_invariant name ks (d : Dispatcher W) :
  (length (multipleKeysBuffer d) <= 1)%nat /\ (peak d <= 2)%nat ->
  (length (multipleKeysBuffer (typed run keyboard name ks d)) <= 1)%nat
  /\ (peak (typed run keyboard name ks d) <= 2)%nat.
Proof.
  revert d. induction ks as [|k ks IH]; intros d Hd; [exact Hd|].
  simpl. apply IH, press_keeps_invariant, Hd.
Qed.

(** Digits reach only the counter. *)
Lemma typed_digits name (digits : list Z) (d : Dispatcher W) :
  typed run keyboard name (Digit <$> digits) d
  = {| multipleKeysBuffer := multipleKeysBuffer d;
       multipleKeysNumber :=
         foldl (fun c n => if c =? 0 then n else wrap64 (c * 10 + n))
           (multipleKeysNumber d) digits;
       world := world d; invoked := invoked d; peak := peak d |}.
Proof.
  revert d. induction digits as [|n digits IH]; intros d.
  - destruct d; reflexivity.
  - simpl. rewrite IH. reflexivity.
Qed.

Lemma wrap64_small z : - 2 ^ 63 <= z < 2 ^ 63 -> wrap64 z = z.
Proof.
  intros Hz. unfold wrap64. rewrite Z.mod_small; lia.
Qed.

(** Up to eighteen decimal digits the machine counter is the counter of
    the spec. *)
Lemma counter_no_overflow (digits : list Z) (c : Z) (k : nat) :
  Forall (fun n => 0 <= n <= 9) digits ->
  0 <= c < 10 ^ Z.of_nat k ->
  (k + length digits <= 18)%nat ->
  foldl (fun c n => if c =? 0 then n else wrap64 (c * 10 + n)) c digits
  = foldl counterStep c digits
  /\ 0 <= foldl counterStep c digits < 10 ^ 18.
Proof.
  intros Hd. revert c k. induction Hd as [|n digits Hn Hd IH]; intros c k Hc Hk.
  - simpl in *. split; [reflexivity|].
    assert (10 ^ Z.of_nat k <= 10 ^ 18) by (apply Z.pow_le_mono_r; lia). lia.
  - simpl in Hk. cbn [foldl].
    assert (Hstep : (if c =? 0 then n else wrap64 (c * 10 + n)) = counterStep c n
                    /\ 0 <= counterStep c n < 10 ^ Z.of_nat (S k)).
    { unfold counterStep.
      assert (Hp : 10 ^ Z.of_nat (S k) = 10 * 10 ^ Z.of_nat k)
        by (rewrite Nat2Z.inj_succ, Z.pow_succ_r; lia).
      assert (10 ^ Z.of_nat (S k) <= 10 ^ 18) by (apply Z.pow_le_mono_r; lia).
      assert (0 < 10 ^ Z.of_nat k) by (apply Z.pow_pos_nonneg; lia).
      destruct (c =? 0) eqn:Hc0; [split; [reflexivity | lia]|].
      split; [apply wrap64_small; lia | lia]. }
    destruct Hstep as [-> Hr]. apply (IH _ (S k)); [exact Hr | lia].
Qed.

(** C4 (as amended). When the buffer holds one key [a] and neither the
    pair [a b] nor [b] alone is bound in the view, [keyPressed b] retries
    with [b] alone as a fresh buffer and then returns [nil] with [b] still
    held in the buffer (one key buffered): no handler is called and neither
    the counter nor the world changes. *)
Theorem failed_combo_keeps_second_key a b name (d : Dispatcher W) :
  multipleKeysBuffer d = [a] ->
  bound name [a; b] = None ->
  bound name [b] = None ->
  keyPressed run keyboard b name d
    = keyPressed run keyboard b name (setBuffer [] (appendKey b d))
  /\ snd (keyPressed run keyboard b name d) = None
  /\ multipleKeysBuffer (fst (keyPressed run keyboard b name d)) = [b]
  /\ multipleKeysNumber (fst (keyPressed run keyboard b name d)) = multipleKeysNumber d
  /\ world (fst (keyPressed run keyboard b name d)) = world d
  /\ invoked (fst (keyPressed run keyboard b name d)) = invoked d.
Proof.
  intros Hd Hab Hb.
  assert (Hfall : keyPressed run keyboard b name d
                  = keyPressed run keyboard b name (setBuffer [] (appendKey b d))).
  { rewrite keyPressed_fallback; rewrite ?Hd; [reflexivity | exact Hab | discriminate]. }
  split; [exact Hfall|]. rewrite Hfall.
  rewrite keyPressed_held; [| exact Hb | reflexivity].
  repeat split; reflexivity.
Qed.

(** C5. Digits typed from a zero counter accumulate by
    [counter == 0 ? digit : counter*10 + digit] (up to eighteen digits
    the 64-bit counter cannot wrap), so 3 then 1 gives 31; a key that then
    completes a bound sequence runs its handler with that counter and
    leaves the counter at 0, as does every [keyPressed] that calls a
    handler; with no digits the handler's repeat count is 1. *)
Theorem repeat_counter_accumulates_then_resets
    name key h (digits : list Z) (d : Dispatcher W) :
  multipleKeysNumber d = 0 ->
  Forall (fun n => 0 <= n <= 9) digits ->
  (length digits <= 18)%nat ->
  bound name (multipleKeysBuffer d ++ [key]) = Some h ->
  let d1 := typed run keyboard name (Digit <$> digits) d in
  let counter := foldl counterStep 0 digits in
  multipleKeysNumber d1 = counter
  /\ press run keyboard name (Char key) d1
     = ({| multipleKeysBuffer := []; multipleKeysNumber := 0;
           world := fst (run h name counter (world d));
           invoked := invoked d ++ [h];
           peak := Nat.max (peak d) (S (length (multipleKeysBuffer d))) |},
        snd (run h name counter (world d)))
  /\ (digits = [] -> getOffsetFromTypedNumbers counter = 1)
  /\ (digits = [3; 1] -> getOffsetFromTypedNumbers counter = 31)
  /\ (forall k (e : Dispatcher W),
        invoked (fst (keyPressed run keyboard k name e)) <> invoked e ->
        multipleKeysNumber (fst (keyPressed run keyboard k name e)) = 0).
Proof.
  intros H0 Hdig Hlen Hb d1 counter.
  assert (Hd1 : d1 = {| multipleKeysBuffer := multipleKeysBuffer d;
                        multipleKeysNumber := counter;
                        world := world d; invoked := invoked d; peak := peak d |}).
  { unfold d1. rewrite typed_digits, H0.
    destruct (counter_no_overflow digits 0 0 Hdig) as [-> _]; [simpl; lia | lia |].
    reflexivity. }
  split; [rewrite Hd1; reflexivity|]. split.
  - rewrite Hd1. cbn [press]. rewrite (keyPressed_match _ _ _ _ _ h) by exact Hb.
    unfold callHandler. cbn. rewrite length_app. cbn.
    f_equal. f_equal. lia.
  - split; [intros ->; reflexivity|]. split; [intros ->; reflexivity|].
    intros k e. apply keyPressed_after_call.
Qed.

(** C6. With [dd] bound to [removeTrackCommand] in a view (and [d] alone
    bound to nothing there, as in the default table), a first [d] from an
    empty buffer calls no handler and leaves [d] buffered; the second [d]
    calls [removeTrackCommand] once, and the buffer is empty afterwards. *)
Theorem dd_fires_on_second_d name (d : Dispatcher W) :
  multipleKeysBuffer d = [] ->
  SequentialKeys keyboard !! (name +:+ " dd") = Some removeTrackCommand ->
  SequentialKeys keyboard !! (name +:+ " d") = None ->
  let r1 := keyPressed run keyboard 100 name d in
  let r2 := keyPressed run keyboard 100 name (fst r1) in
  (multipleKeysBuffer (fst r1) = [100] /\ invoked (fst r1) = invoked d
   /\ world (fst r1) = world d /\ snd r1 = None)
  /\ (multipleKeysBuffer (fst r2) = [] /\ invoked (fst r2) = invoked d ++ [removeTrackCommand]
      /\ world (fst r2) = fst (run removeTrackCommand name (multipleKeysNumber d) (world d))
      /\ snd r2 = snd (run removeTrackCommand name (multipleKeysNumber d) (world d))).
Proof.
  intros Hd Hdd Hsingle r1 r2.
  assert (H1 : r1 = (appendKey 100 d, None)).
  { unfold r1. apply keyPressed_held; [rewrite Hd; exact Hsingle | exact Hd]. }
  assert (H2 : r2 = callHandler run removeTrackCommand name
                      (setBuffer [] (appendKey 100 (appendKey 100 d)))).
  { unfold r2. rewrite H1. apply keyPressed_match. simpl. rewrite Hd. exact Hdd. }
  split.
  - rewrite H1. simpl. rewrite Hd. repeat split; reflexivity.
  - rewrite H2. simpl. repeat split; reflexivity.
Qed.

(** C10. Whatever the state at entry, the buffer holds at most one
    character when [keyPressed] returns, and none when a handler was
    called; a pair that is not bound is dropped for its second key alone;
    and in any run of keystrokes from start-up the buffer holds at most
    one character between keystrokes and never more than two at any
    moment. *)
Theorem buffer_never_exceeds_two :
  (forall key name (d : Dispatcher W),
     (length (multipleKeysBuffer (fst (keyPressed run keyboard key name d))) <= 1)%nat)
  /\ (forall key name (d : Dispatcher W),
        invoked (fst (keyPressed run keyboard key name d)) <> invoked d ->
        multipleKeysBuffer (fst (keyPressed run keyboard key name d)) = [])
  /\ (forall key name (d : Dispatcher W),
        bound name (multipleKeysBuffer d ++ [key]) = None ->
        multipleKeysBuffer d <> [] ->
        keyPressed run keyboard key name d
        = keyPressed run keyboard (nth 1 (multipleKeysBuffer d ++ [key]) 0) name
            (setBuffer [] (appendKey key d)))
  /\ (forall name ks (w : W),
        (length (multipleKeysBuffer (typed run keyboard name ks (idle w))) <= 1)%nat
        /\ (peak (typed run keyboard name ks (idle w)) <= 2)%nat).
Proof.
  split; [apply keyPressed_buffer_short|].
  split; [intros key name d Hc; apply (keyPressed_after_call key name d Hc)|].
  split; [apply keyPressed_fallback|].
  intros name ks w. apply typed_keeps_invariant. simpl. lia.
Qed.

End DispatchProperties.

(** *** The default table at work *)

Lemma failed_combo_keeps_second_key_witness :
  let d : Dispatcher (list Z) := appendKey 100 (idle []) in
  multipleKeysBuffer d = [100]
  /\ SequentialKeys defaultKeyboard !! ("main" +:+ " " +:+ keyCombination [100; 120]) = None
  /\ SequentialKeys defaultKeyboard !! ("main" +:+ " " +:+ keyCombination [120]) = None
  /\ snd (keyPressed logRun defaultKeyboard 120 "main" d) = None
  /\ multipleKeysBuffer (fst (keyPressed logRun defaultKeyboard 120 "main" d)) = [120].
Proof.
  intros d.
  assert (Hd : multipleKeysBuffer d = [100]) by reflexivity.
  assert (H1 : SequentialKeys defaultKeyboard
                 !! ("main" +:+ " " +:+ keyCombination [100; 120]) = None)
    by (vm_compute; reflexivity).
  assert (H2 : SequentialKeys defaultKeyboard
                 !! ("main" +:+ " " +:+ keyCombination [120]) = None)
    by (vm_compute; reflexivity).
  destruct (failed_combo_keeps_second_key logRun defaultKeyboard 100 120 "main" d Hd H1 H2)
    as (_ & He & Hb & _).
  repeat split; assumption.
Defined.

(** C4 as the spec words it fails: in the default table, with [d] held,
    the unbound key [x] does not leave an empty buffer behind. *)
Lemma failed_combo_does_not_return_to_idle :
  let d : Dispatcher (list Z) := appendKey 100 (idle []) in
  SequentialKeys defaultKeyboard !! "main dx"%string = None
  /\ SequentialKeys defaultKeyboard !! "main x"%string = None
  /\ multipleKeysBuffer (fst (keyPressed logRun defaultKeyboard 120 "main" d)) <> [].
Proof.
  intros d. split; [vm_compute; reflexivity|]. split; [vm_compute; reflexivity|].
  vm_compute. discriminate.
Qed.

Lemma repeat_counter_accumulates_then_resets_witness :
  let d : Dispatcher (list Z) := appendKey 100 (idle []) in
  let d1 := typed logRun defaultKeyboard "queue" [Digit 3; Digit 1] d in
  multipleKeysNumber d1 = 31
  /\ press logRun defaultKeyboard "queue" (Char 100) d1
     = ({| multipleKeysBuffer := []; multipleKeysNumber := 0; world := [31];
           invoked := [removeTrackCommand]; peak := 2 |}, None).
Proof.
  intros d d1.
  assert (H0 : multipleKeysNumber d = 0) by reflexivity.
  assert (Hdig : Forall (fun n => 0 <= n <= 9) [3; 1])
    by (repeat constructor; lia).
  assert (Hlen : (length [3; 1] <= 18)%nat) by (simpl; lia).
  assert (Hb : SequentialKeys defaultKeyboard
                 !! ("queue" +:+ " " +:+ keyCombination (multipleKeysBuffer d ++ [100]))
               = Some removeTrackCommand) by (vm_compute; reflexivity).
  destruct (repeat_counter_accumulates_then_resets logRun defaultKeyboard
              "queue" 100 removeTrackCommand [3; 1] d H0 Hdig Hlen Hb) as (Hn & Hp & _).
  split; [exact Hn | exact Hp].
Defined.

Lemma dd_fires_on_second_d_witness :
  let d : Dispatcher (list Z) := idle [] in
  let r1 := keyPressed logRun defaultKeyboard 100 "main" d in
  let r2 := keyPressed logRun defaultKeyboard 100 "main" (fst r1) in
  SequentialKeys defaultKeyboard !! ("main" +:+ " dd") = Some removeTrackCommand
  /\ SequentialKeys defaultKeyboard !! ("main" +:+ " d") = None
  /\ multipleKeysBuffer (fst r1) = [100] /\ invoked (fst r1) = []
  /\ multipleKeysBuffer (fst r2) = [] /\ invoked (fst r2) = [removeTrackCommand].
Proof.
  intros d r1 r2.
  assert (Hd : multipleKeysBuffer d = []) by reflexivity.
  assert (Hdd : SequentialKeys defaultKeyboard !! ("main" +:+ " dd")
                = Some removeTrackCommand) by (vm_compute; reflexivity).
  assert (Hs : SequentialKeys defaultKeyboard !! ("main" +:+ " d") = None)
    by (vm_compute; reflexivity).
  destruct (dd_fires_on_second_d logRun defaultKeyboard "main" d Hd Hdd Hs)
    as ((Hb1 & Hi1 & _) & (Hb2 & Hi2 & _)).
  repeat split; assumption.
Defined.

(** In the default table [dd] removes a track in each of the three list
    views and [d] alone is bound in none of them. *)
Lemma default_table_binds_dd :
  Forall (fun name =>
            SequentialKeys defaultKeyboard !! (name +:+ " dd") = Some removeTrackCommand
            /\ SequentialKeys defaultKeyboard !! (name +:+ " d") = None)
    ["side"; "main"; "queue"]%string.
Proof.
  repeat constructor; vm_compute; reflexivity.
Qed.

End KeysFacts.


Module PlayerFacts.

Import Player.

Section Loop.

Variable load : Track -> error.
Variable search : string -> Cmd unit.
Variable artistTopTrack : string -> Cmd unit.

Local Abbreviation loop := (waitForEvents load search artistTopTrack).

(** A round of the loop followed by the rest of the loop. *)
Lemma waitForEvents_cons sig rest (s : Spotify) :
  loop (sig :: rest) s
  = match dispatch load search artistTopTrack sig s with
    | Ok _ s1 o1 => after o1 (loop rest s1)
    | Exit s1 o1 => Exit s1 o1
    | Panic s1 o1 => Panic s1 o1
    end.
Proof.
  cbn [waitForEvents]. unfold mbind, M_bind.
  destruct (dispatch load search artistTopTrack sig s); [|reflexivity..].
  unfold after. destruct (waitForEvents _ _ _ rest s0); reflexivity.
Qed.

(** C2 (as amended). When the loop takes [Shutdown] it logs out, deletes
    the cache and publishes the shutdown, and then goes on waiting: what
    arrives afterwards is handled exactly as it would be from the same
    state at any other time. *)
Theorem shutdown_cleans_up_and_loop_goes_on rest (s : Spotify) :
  loop (Shutdown :: rest) s
  = after [SessionLogout; DeleteCache; EvShutdown] (loop rest s).
Proof.
  rewrite waitForEvents_cons. reflexivity.
Qed.

(** C3 (as amended). When [player.Load] fails for an available track,
    [play] logs the error with [log.Fatal] and the process exits: no
    status is published, and whatever arrives later is not handled. *)
Theorem load_failure_exits_process t err rest (s : Spotify) :
  trackAvailable t = true ->
  load t = Some err ->
  play load (Some t) s = Exit s [PlayerLoad t; LogFatal err]
  /\ loop (Play (Some t) :: rest) s = Exit s [PlayerLoad t; LogFatal err].
Proof.
  intros Hav Hload.
  assert (Hplay : play load (Some t) s = Exit s [PlayerLoad t; LogFatal err]).
  { unfold play. rewrite Hav, Hload. reflexivity. }
  split; [exact Hplay|].
  rewrite waitForEvents_cons. cbn [dispatch]. rewrite Hplay. reflexivity.
Qed.

(** C9. For a track the backend reports unavailable, [play] publishes the
    status "Not available" and returns: nothing is loaded or played, the
    current track and the pause flag stay as they were, no next-play is
    requested, and the loop goes on. On the interface side the status
    only replaces the message: cursor, current track and queue stay. *)
Theorem unavailable_track_only_reports t rest (s : Spotify) :
  trackAvailable t = false ->
  play load (Some t) s = Ok tt s [EvSetStatus "Not available"]
  /\ loop (Play (Some t) :: rest) s
     = after [EvSetStatus "Not available"] (loop rest s)
  /\ forall g : Ui.Gui,
       exists g', Ui.updateStatus "Not available" g
                  = Ok tt g' [Ui.StatusShown "Not available"]
         /\ Ui.currentPlaylist (Ui.state g') = Ui.currentPlaylist (Ui.state g)
         /\ Ui.currentIndexTrack (Ui.state g') = Ui.currentIndexTrack (Ui.state g)
         /\ Ui.currentTrack g' = Ui.currentTrack g
         /\ Ui.queue g' = Ui.queue g.
Proof.
  intros Hav.
  assert (Hplay : play load (Some t) s = Ok tt s [EvSetStatus "Not available"]).
  { unfold play. rewrite Hav. reflexivity. }
  split; [exact Hplay|]. split.
  - rewrite waitForEvents_cons. cbn [dispatch]. rewrite Hplay. reflexivity.
  - intros g. eexists. split; [reflexivity|]. repeat split; reflexivity.
Qed.

End Loop.

(** C2 as worded fails: a track is playing, [Shutdown] arrives and then
    [Pause]; the pause is carried out and the pause flag changes. *)
Lemma pause_after_shutdown_is_processed :
  let s := {| currentTrack := Some song; paused := false |} in
  waitForEvents workingLoad ignore ignore [Shutdown] s
    = Ok tt s [SessionLogout; DeleteCache; EvShutdown]
  /\ waitForEvents workingLoad ignore ignore [Shutdown; Pause] s
     = Ok tt {| currentTrack := Some song; paused := true |}
         [SessionLogout; DeleteCache; EvShutdown; PlayerPause;
          EvSetStatus "Paused: Band - Song [3m0s]"].
Proof.
  split; reflexivity.
Qed.

(** C3 as worded fails: the load of an available track fails while the
    loop runs; the process exits, no status is published and the
    end-of-track that follows is never handled. *)
Lemma load_failure_is_fatal :
  let s := {| currentTrack := None; paused := false |} in
  let r := waitForEvents failingLoad ignore ignore [Play (Some song); EndOfTrack] s in
  r = Exit s [PlayerLoad song; LogFatal "load failed"]
  /\ (forall m, EvSetStatus m ∉ actions r)
  /\ EvNextPlay ∉ actions r.
Proof.
  intros s r. split; [reflexivity|].
  split; [intros m Hin | intros Hin]; vm_compute in Hin;
    repeat (apply elem_of_cons in Hin as [Hin|Hin]; [discriminate|]);
    apply elem_of_nil in Hin; exact Hin.
Qed.

Lemma load_failure_exits_process_witness :
  let s := {| currentTrack := None; paused := false |} in
  trackAvailable song = true
  /\ failingLoad song = Some "load failed"%string
  /\ waitForEvents failingLoad ignore ignore [Play (Some song); Pause] s
     = Exit s [PlayerLoad song; LogFatal "load failed"].
Proof.
  intros s. split; [reflexivity|]. split; [reflexivity|].
  apply (load_failure_exits_process failingLoad ignore ignore song "load failed"
           [Pause] s); reflexivity.
Defined.

Lemma unavailable_track_only_reports_witness :
  let s := {| currentTrack := Some song; paused := false |} in
  trackAvailable goneSong = false
  /\ play workingLoad (Some goneSong) s = Ok tt s [EvSetStatus "Not available"].
Proof.
  intros s. split; [reflexivity|].
  apply (unavailable_track_only_reports workingLoad ignore ignore goneSong [] s).
  reflexivity.
Defined.

End PlayerFacts.

Module UiFacts.

Import Ui.

(** C7. In a playlist of [N > 0] tracks, from a cursor index [i] of the
    playlist (or from the index -1 of a cursor on no line),
    [getNextTrack] gives [(i+1) mod N]; from [N-1] it gives 0. *)
Theorem sequential_next_wraps (pl : Playlist) (g : Gui) :
  0 < Z.of_nat (length pl) ->
  -1 <= currentIndexTrack (state g) < Z.of_nat (length pl) ->
  getNextTrack (Some pl) g
    = Ok ((currentIndexTrack (state g) + 1) mod Z.of_nat (length pl)) g []
  /\ (currentIndexTrack (state g) = Z.of_nat (length pl) - 1 ->
      getNextTrack (Some pl) g = Ok 0 g []).
Proof.
  intros HN Hi. unfold getNextTrack, Tracks. run_cmd.
  destruct (Z.of_nat (length pl) - 1 <=? currentIndexTrack (state g)) eqn:Hle.
  - apply Z.leb_le in Hle.
    replace (currentIndexTrack (state g) + 1) with (Z.of_nat (length pl)) by lia.
    rewrite Z_mod_same_full. split; reflexivity.
  - apply Z.leb_gt in Hle. rewrite Z.mod_small by lia. split; [reflexivity | lia].
Qed.

Lemma sequential_next_wraps_witness :
  let g := sampleGui Sequential 1 [] in
  0 < Z.of_nat (length [song; goneSong])
  /\ -1 <= currentIndexTrack (state g) < Z.of_nat (length [song; goneSong])
  /\ getNextTrack (Some [song; goneSong]) g = Ok 0 g [].
Proof.
  intros g. split; [simpl; lia|]. split; [simpl; lia|].
  apply (sequential_next_wraps [song; goneSong] g); simpl; lia.
Defined.

(** Outside the playlist the selection does not follow the formula: from
    any index at or past the last one it gives 0. *)
Lemma sequential_next_past_end (pl : Playlist) (g : Gui) :
  Z.of_nat (length pl) - 1 <= currentIndexTrack (state g) ->
  getNextTrack (Some pl) g = Ok 0 g [].
Proof.
  intros Hle. unfold getNextTrack, Tracks. run_cmd.
  apply Z.leb_le in Hle. rewrite Hle. reflexivity.
Qed.

(** C1. With an empty and a non-empty playlist and a draw that lands on
    the first entry, the ShuffleAll selection picks the empty playlist
    and [rand.Intn(0)] panics; so does [playNext] in that mode. *)
Theorem shuffle_all_picks_empty_playlist_and_panics :
  let g := sampleGui ShuffleAll 0 [] in
  pickEntry (playlists g) (rand g 0 mod Z.of_nat (length (playlists g))) 0
    = ("empty"%string, Some [])
  /\ (exists g', getRandomNextPlaylistAndTrack g = Panic g' [])
  /\ (exists g', playNext selected g = Panic g' []).
Proof.
  intros g. split; [reflexivity|]. split; eexists; reflexivity.
Qed.

(** *** Reading a sequence of commands backwards *)

Lemma bind_ok {S E A B} (m : M S E A) (f : A -> M S E B) s b s' o :
  (m ≫= f) s = Ok b s' o ->
  exists a s1 o1 o2, m s = Ok a s1 o1 /\ f a s1 = Ok b s' o2 /\ o = o1 ++ o2.
Proof.
  unfold mbind, M_bind. destruct (m s) as [a s1 o1| |]; try discriminate.
  destruct (f a s1) as [b' s2 o2| |] eqn:Hf; try discriminate.
  intros [= -> -> <-]. exists a, s1, o1, o2. auto.
Qed.

Lemma emits_bind {S E A B} (P : E -> Prop) (m : M S E A) (f : A -> M S E B) :
  emits P m -> (forall a, emits P (f a)) -> emits P (m ≫= f).
Proof.
  intros Hm Hf s. specialize (Hm s). unfold mbind, M_bind.
  destruct (m s) as [a s1 o1| |]; [|exact Hm..].
  specialize (Hf a s1). destruct (f a s1); simpl in *; apply Forall_app; auto.
Qed.

Lemma emits_silent {S E A} (P : E -> Prop) (m : M S E A) :
  (forall s, actions (m s) = []) -> emits P m.
Proof. intros H s. rewrite H. constructor. Qed.

Lemma emits_emit {S E} (P : E -> Prop) (e : E) : P e -> emits P (emit (S:=S) e).
Proof. intros H s. repeat constructor. exact H. Qed.

Lemma Intn_silent n g : actions (Intn n g) = [].
Proof. unfold Intn. destruct (n <=? 0); reflexivity. Qed.

Lemma Tracks_silent p g : actions (Tracks p g) = [].
Proof. destruct p; reflexivity. Qed.

Lemma TrackAt_silent p i g : actions (TrackAt p i g) = [].
Proof.
  unfold TrackAt. destruct p as [l|]; [|reflexivity].
  destruct (_ || _); [reflexivity|]. destruct (l !! _); reflexivity.
Qed.

Ltac no_pop :=
  repeat first
    [ apply emits_bind; [|intros ?]
    | apply emits_silent; intros ?;
      first [ reflexivity | apply Intn_silent | apply Tracks_silent
            | apply TrackAt_silent ]
    | apply emits_emit; discriminate ].

Lemma playNextFromPlaylist_no_pop : emits notPop playNextFromPlaylist.
Proof.
  unfold playNextFromPlaylist. apply emits_bind; [no_pop|]. intros g.
  apply emits_bind.
  - destruct (mode (state g));
      unfold getRandomNextPlaylistAndTrack, getRandomNextTrack, getNextTrack,
        setCursor, setIndex, setState; no_pop.
    destruct (_ <=? _); no_pop.
  - intros pl. unfold play. no_pop.
Qed.

Lemma Intn_ok n g v g' o :
  Intn n g = Ok v g' o -> o = [] /\ onlyDrew g g' /\ 0 <= v < n.
Proof.
  unfold Intn. destruct (n <=? 0) eqn:Hn; [discriminate|].
  intros [= <- <- <-]. apply Z.leb_gt in Hn.
  repeat split; try reflexivity; apply Z.mod_pos_bound; lia.
Qed.

Lemma Tracks_ok p g n g' o :
  Tracks p g = Ok n g' o ->
  exists pl, p = Some pl /\ n = Z.of_nat (length pl) /\ g' = g /\ o = [].
Proof.
  destruct p as [pl|]; [|discriminate]. intros [= <- <- <-]. eauto.
Qed.

Lemma TrackAt_ok p i g t g' o :
  TrackAt p i g = Ok t g' o ->
  exists pl, p = Some pl /\ pl !! Z.to_nat i = Some t /\ g' = g /\ o = [].
Proof.
  unfold TrackAt. destruct p as [pl|]; [|discriminate].
  destruct (_ || _); [discriminate|].
  destruct (pl !! Z.to_nat i) as [t'|] eqn:Ht; [|discriminate].
  intros [= <- <- <-]. eauto.
Qed.

Ltac inv_bind H :=
  let a := fresh "a" in let s1 := fresh "s" in
  let o1 := fresh "o" in let o2 := fresh "o" in
  let H1 := fresh "Hstep" in
  apply bind_ok in H as (a & s1 & o1 & o2 & H1 & H & ->).

Lemma getNextTrack_ok p g i g' o :
  getNextTrack p g = Ok i g' o -> (exists pl, p = Some pl) /\ g' = g /\ o = [].
Proof.
  unfold getNextTrack. intros H. inv_bind H.
  apply Tracks_ok in Hstep as (pl & -> & -> & -> & ->).
  inv_bind H. injection Hstep as <- <- <-.
  destruct (_ <=? _); injection H as <- <- <-; eauto.
Qed.

Lemma getRandomNextTrack_ok p g i g' o :
  getRandomNextTrack p g = Ok i g' o ->
  (exists pl, p = Some pl) /\ onlyDrew g g' /\ o = [].
Proof.
  unfold getRandomNextTrack. intros H. inv_bind H.
  apply Tracks_ok in Hstep as (pl & -> & -> & -> & ->).
  apply Intn_ok in H as (-> & Hd & _). eauto.
Qed.

Lemma getRandomNextPlaylistAndTrack_ok g r g' o :
  getRandomNextPlaylistAndTrack g = Ok r g' o -> onlyDrew g g' /\ o = [].
Proof.
  unfold getRandomNextPlaylistAndTrack. intros H. inv_bind H.
  injection Hstep as <- <- <-. inv_bind H.
  apply Intn_ok in Hstep as (-> & (Hq & Hs & Hp & Hc) & _).
  inv_bind H. apply Tracks_ok in Hstep as (pl & _ & -> & -> & ->).
  inv_bind H. apply Intn_ok in Hstep as (-> & (Hq' & Hs' & Hp' & Hc') & _).
  injection H as <- <- <-. split; [|reflexivity].
  repeat split; congruence.
Qed.

(** What [playNextFromPlaylist] does when it returns. *)
Lemma playNextFromPlaylist_ok (g g' : Gui) out :
  playNextFromPlaylist g = Ok tt g' out -> playsSelection g g' out.
Proof.
  unfold playNextFromPlaylist. intros H.
  inv_bind H. injection Hstep as <- <- <-.
  inv_bind H. inv_bind H. injection Hstep0 as <- <- <-.
  inv_bind H. apply TrackAt_ok in Hstep0 as (pl & -> & Ht & -> & ->).
  unfold play in H. inv_bind H. injection Hstep0 as <- <- <-.
  injection H as <- <-.
  unfold playsSelection. exists pl, a0. cbn.
  destruct (mode (state g)) eqn:Hm.
  - inv_bind Hstep. pose proof Hstep0 as Hnext.
    apply getNextTrack_ok in Hstep0 as (_ & -> & ->).
    inv_bind Hstep. injection Hstep0 as <- <-. injection Hstep as Hl <- <-.
    cbn in *. rewrite Hl in Hnext. subst. repeat split; auto.
  - inv_bind Hstep. pose proof Hstep0 as Hnext.
    apply getRandomNextTrack_ok in Hstep0 as (_ & (Hq & Hs & Hp & Hc) & ->).
    inv_bind Hstep. injection Hstep0 as <- <-. injection Hstep as Hl <- <-.
    cbn in *. rewrite Hs, Hp. rewrite Hl in Hnext. subst. repeat split; eauto.
  - inv_bind Hstep. destruct a as [name i]. pose proof Hstep0 as Hnext.
    apply getRandomNextPlaylistAndTrack_ok in Hstep0 as ((Hq & Hs & Hp & Hc) & ->).
    inv_bind Hstep. injection Hstep0 as <- <-.
    inv_bind Hstep. injection Hstep0 as <- <- <-. injection Hstep as Hl <- <-.
    cbn in *. rewrite Hp in *. subst. repeat split; eauto.
Qed.

Section PlayNextFacts.

Variable hasPlaylistSelected : UiState -> bool.

Local Abbreviation playNext := (Ui.playNext hasPlaylistSelected).

Lemma playNext_empty_queue (g : Gui) :
  queue g = [] ->
  playNext g = if hasPlaylistSelected (state g)
               then (playNextFromPlaylist ;; mret None) g
               else Ok None g [].
Proof.
  intros Hq. unfold Ui.playNext. run_cmd. rewrite Hq. cbn.
  destruct (hasPlaylistSelected (state g)); [|reflexivity].
  destruct (playNextFromPlaylist g) as [[] ? ?| |]; reflexivity.
Qed.

(** C8. [playNext] looks at the queue first. With a track at the front it
    pops and plays that track; with an empty queue and a playlist
    selected it plays what the selector of the active mode chooses; with
    neither it does nothing. On an empty queue it never calls [Pop]. *)
Theorem playNext_consults_queue_first :
  (forall t q g, queue g = t :: q ->
     playNext g
     = Ok None {| queue := q; state := state g; playlists := playlists g;
                  currentTrack := Some t; rand := rand g; drawn := drawn g |}
          [QueuePop; EventsPlay (Some t); QueueViewUpdated])
  /\ (forall g, queue g = [] -> hasPlaylistSelected (state g) = true ->
        playNext g = (playNextFromPlaylist ;; mret None) g
        /\ forall g' out, playNext g = Ok None g' out -> playsSelection g g' out)
  /\ (forall g, queue g = [] -> hasPlaylistSelected (state g) = false ->
        playNext g = Ok None g [])
  /\ (forall g, queue g = [] -> QueuePop ∉ actions (playNext g)).
Proof.
  split; [|split; [|split]].
  - intros t q g Hq. unfold Ui.playNext, playNextFromQueue, Pop, play, updateQueueView.
    run_cmd. rewrite Hq. cbn. rewrite Hq. reflexivity.
  - intros g Hq Hsel. rewrite (playNext_empty_queue g Hq), Hsel.
    split; [reflexivity|]. intros g' out H. inv_bind H.
    injection H as <- <-. destruct a. rewrite app_nil_r.
    apply playNextFromPlaylist_ok. exact Hstep.
  - intros g Hq Hsel. rewrite (playNext_empty_queue g Hq), Hsel. reflexivity.
  - intros g Hq Hin. rewrite (playNext_empty_queue g Hq) in Hin.
    destruct (hasPlaylistSelected (state g)); [|cbn in Hin; apply elem_of_nil in Hin; exact Hin].
    assert (Hall : emits notPop (playNextFromPlaylist ;; mret (M:=Cmd) (None : error))).
    { apply emits_bind; [apply playNextFromPlaylist_no_pop|].
      intros ?. apply emits_silent. reflexivity. }
    specialize (Hall g). rewrite Forall_forall in Hall.
    apply (Hall QueuePop Hin). reflexivity.
Qed.

End PlayNextFacts.

Lemma playNext_consults_queue_first_witness :
  playNext selected (sampleGui Sequential 0 [goneSong; song])
  = Ok None {| queue := [song]; state := state (sampleGui Sequential 0 []);
               playlists := twoPlaylists; currentTrack := Some goneSong;
               rand := fun _ => 0; drawn := 0 |}
       [QueuePop; EventsPlay (Some goneSong); QueueViewUpdated]
  /\ playNext selected (sampleGui Sequential 0 [])
     = Ok None {| queue := []; state := state (sampleGui Sequential 1 []);
                  playlists := twoPlaylists; currentTrack := Some goneSong;
                  rand := fun _ => 0; drawn := 0 |}
          [EventsPlay (Some goneSong)].
Proof.
  split.
  - exact (proj1 (playNext_consults_queue_first selected) goneSong [song]
             (sampleGui Sequential 0 [goneSong; song]) eq_refl).
  - destruct (playNext_consults_queue_first selected) as (_ & Hsel & _).
    destruct (Hsel (sampleGui Sequential 0 []) eq_refl eq_refl) as [-> _].
    reflexivity.
Defined.

(** The loop of the ShuffleAll selection reaches the entry at the drawn
    position. *)
Lemma pickEntry_lookup (entries : list (string * Playlist)) (index count : Z) :
  count <= index < count + Z.of_nat (length entries) ->
  exists k v, entries !! Z.to_nat (index - count) = Some (k, v)
              /\ pickEntry entries index count = (k, Some v).
Proof.
  revert count. induction entries as [|[k v] rest IH]; intros count Hr.
  - simpl in Hr. lia.
  - cbn [pickEntry]. destruct (index =? count) eqn:He.
    + apply Z.eqb_eq in He. subst. rewrite Z.sub_diag. exists k, v. auto.
    + apply Z.eqb_neq in He. cbn [length] in Hr.
      destruct (IH (count + 1)) as (k' & v' & Hl & Hp); [lia|].
      exists k', v'. split; [|exact Hp].
      replace (Z.to_nat (index - count)) with (S (Z.to_nat (index - (count + 1))))
        by lia.
      exact Hl.
Qed.

(** When no playlist of a non-empty collection is empty, the ShuffleAll
    selection returns a playlist of the collection and an index into it. *)
Lemma shuffle_all_ok_without_empty_playlists (g : Gui) :
  playlists g <> [] ->
  Forall (fun e => snd e <> []) (playlists g) ->
  exists name i g' pl,
    getRandomNextPlaylistAndTrack g = Ok (name, i) g' []
    /\ (name, pl) ∈ playlists g
    /\ 0 <= i < Z.of_nat (length pl).
Proof.
  intros Hne Hall. unfold getRandomNextPlaylistAndTrack, Intn, Tracks. run_cmd.
  destruct (Z.of_nat (length (playlists g)) <=? 0) eqn:Hlen.
  { apply Z.leb_le in Hlen. destruct (playlists g); [congruence | simpl in Hlen; lia]. }
  apply Z.leb_gt in Hlen. cbn.
  set (index := rand g (drawn g) mod Z.of_nat (length (playlists g))).
  assert (Hidx : 0 <= index < 0 + Z.of_nat (length (playlists g)))
    by (unfold index; pose proof (Z.mod_pos_bound (rand g (drawn g)) _ Hlen); lia).
  destruct (pickEntry_lookup (playlists g) index 0 Hidx) as (k & v & Hl & ->).
  cbn. apply list_elem_of_lookup_2 in Hl.
  rewrite Forall_forall in Hall. pose proof (Hall _ Hl) as Hv. cbn in Hv.
  destruct (Z.of_nat (length v) <=? 0) eqn:Hn.
  { apply Z.leb_le in Hn. destruct v; [congruence | simpl in Hn; lia]. }
  apply Z.leb_gt in Hn. cbn. eexists k, _, _, v. split; [reflexivity|].
  split; [exact Hl|]. apply Z.mod_pos_bound. exact Hn.
Qed.


End UiFacts.

(** ** More of the backend event loop *)

Module PlayerMore.

Import Player.


Lemma after_nil {S E A} (r : Res S E A) : after [] r = r.
Proof. destruct r; reflexivity. Qed.

Section Loop.

Variable load : Track -> error.
Variable search : string -> Cmd unit.
Variable artistTopTrack : string -> Cmd unit.

Local Abbreviation loop := (waitForEvents load search artistTopTrack).

(** The text of the status published for a track. *)
Local Abbreviation status word t :=
  (EvSetStatus (word +:+ ": " +:+ trackArtist t +:+ " - " +:+ trackName t
                +:+ " [" +:+ trackDuration t +:+ "]")).


(** With no current track a [Pause] does nothing at all. *)
Theorem pause_without_track_is_ignored (s : Spotify) :
  currentTrack s = None ->
  pause load s = Ok tt s [] /\ forall rest, loop (Pause :: rest) s = loop rest s.
Proof.
  intros Hc.
  assert (Hp : pause load s = Ok tt s []).
  { unfold pause, isPausedOrPlaying. run_cmd. rewrite Hc. reflexivity. }
  split; [exact Hp|]. intros rest.
  rewrite PlayerFacts.waitForEvents_cons. cbn [dispatch]. rewrite Hp.
  apply after_nil.
Qed.

(** A playing track that is available and loads: one [Pause] pauses the
    player and sets the flag; a second one loads and plays the track
    again and brings the state back to what it was. *)
Theorem pause_twice_resumes t (s : Spotify) :
  currentTrack s = Some t ->
  paused s = false ->
  trackAvailable t = true ->
  load t = None ->
  pause load s
    = Ok tt {| currentTrack := Some t; paused := true |}
        [PlayerPause; status "Paused" t]
  /\ loop [Pause; Pause] s
     = Ok tt s [PlayerPause; status "Paused" t;
                PlayerLoad t; PlayerPlay; status "Playing" t].
Proof.
  intros Hc Hp Hav Hl. destruct s as [c p]. cbn in Hc, Hp. subst c p.
  split.
  - unfold pause, pauseCurrentTrack, updateStatus, isPausedOrPlaying. run_cmd.
    reflexivity.
  - cbn [waitForEvents dispatch].
    unfold pause, pauseCurrentTrack, playCurrentTrack, play, updateStatus,
      isPausedOrPlaying. run_cmd. rewrite Hav, Hl. reflexivity.
Qed.

(** [play] never touches the pause flag. A track started while the flag
    is set leaves it set, and the next [Pause] then loads and plays that
    track again instead of pausing it. *)
Theorem play_keeps_pause_flag t (s : Spotify) :
  trackAvailable t = true ->
  load t = None ->
  play load (Some t) s
    = Ok tt {| currentTrack := Some t; paused := paused s |}
        [PlayerLoad t; PlayerPlay; status "Playing" t]
  /\ (paused s = true ->
      loop [Play (Some t); Pause] s
      = Ok tt {| currentTrack := Some t; paused := false |}
          [PlayerLoad t; PlayerPlay; status "Playing" t;
           PlayerLoad t; PlayerPlay; status "Playing" t]).
Proof.
  intros Hav Hl. split.
  - unfold play, updateStatus. run_cmd. rewrite Hav, Hl. reflexivity.
  - intros Hp. destruct s as [c p]. cbn in Hp. subst p.
    cbn [waitForEvents dispatch].
    unfold pause, pauseCurrentTrack, playCurrentTrack, play, updateStatus,
      isPausedOrPlaying. run_cmd. rewrite Hav, Hl. cbn. rewrite Hav, Hl.
    reflexivity.
Qed.

(** Resuming a paused track that is no longer available publishes "Not
    available", loads and plays nothing, and still clears the pause
    flag. *)
Theorem resume_of_unavailable_track_clears_flag t (s : Spotify) :
  currentTrack s = Some t ->
  paused s = true ->
  trackAvailable t = false ->
  pause load s
  = Ok tt {| currentTrack := Some t; paused := false |}
      [EvSetStatus "Not available"].
Proof.
  intros Hc Hp Hav. destruct s as [c p]. cbn in Hc, Hp. subst c p.
  unfold pause, playCurrentTrack, play, isPausedOrPlaying. run_cmd.
  rewrite Hav. reflexivity.
Qed.

End Loop.

Lemma pause_without_track_is_ignored_witness :
  let s := {| currentTrack := None; paused := false |} in
  currentTrack s = None /\ pause workingLoad s = Ok tt s [].
Proof.
  intros s. split; [reflexivity|].
  apply (pause_without_track_is_ignored workingLoad ignore ignore s). reflexivity.
Defined.

Lemma pause_twice_resumes_witness :
  let s := {| currentTrack := Some song; paused := false |} in
  waitForEvents workingLoad ignore ignore [Pause; Pause] s
  = Ok tt s [PlayerPause; EvSetStatus "Paused: Band - Song [3m0s]";
             PlayerLoad song; PlayerPlay; EvSetStatus "Playing: Band - Song [3m0s]"].
Proof.
  intros s.
  apply (pause_twice_resumes workingLoad ignore ignore song s); reflexivity.
Defined.

Lemma play_keeps_pause_flag_witness :
  let s := {| currentTrack := Some goneSong; paused := true |} in
  trackAvailable song = true /\ workingLoad song = None
  /\ play workingLoad (Some song) s
     = Ok tt {| currentTrack := Some song; paused := true |}
         [PlayerLoad song; PlayerPlay; EvSetStatus "Playing: Band - Song [3m0s]"].
Proof.
  intros s. split; [reflexivity|]. split; [reflexivity|].
  apply (play_keeps_pause_flag workingLoad ignore ignore song s); reflexivity.
Defined.

Lemma resume_of_unavailable_track_clears_flag_witness :
  let s := {| currentTrack := Some goneSong; paused := true |} in
  pause workingLoad s
  = Ok tt {| currentTrack := Some goneSong; paused := false |}
      [EvSetStatus "Not available"].
Proof.
  intros s.
  apply (resume_of_unavailable_track_clears_flag workingLoad goneSong s); reflexivity.
Defined.

End PlayerMore.

(** ** More of the next-track selection *)

Module UiMore.

Import Ui.

(** Shuffle within a playlist: an index of the playlist when it has
    tracks, with only the random source moved on; a panic when it has
    none. *)
Theorem shuffle_index_in_range (pl : Playlist) (g : Gui) :
  (pl <> [] ->
   exists i g', getRandomNextTrack (Some pl) g = Ok i g' []
                /\ 0 <= i < Z.of_nat (length pl) /\ onlyDrew g g')
  /\ (pl = [] -> getRandomNextTrack (Some pl) g = Panic g []).
Proof.
  split.
  - intros Hne.
    destruct (getRandomNextTrack (Some pl) g) as [i g' o| |] eqn:Hr.
    + pose proof Hr as Hr'. unfold getRandomNextTrack, Tracks in Hr'.
      apply UiFacts.bind_ok in Hr' as (n & s1 & o1 & o2 & Hn & Hi & ->).
      injection Hn as <- <- <-.
      apply UiFacts.Intn_ok in Hi as (-> & Hd & Hrange). eauto.
    + exfalso. unfold getRandomNextTrack, Tracks, Intn in Hr. revert Hr. run_cmd.
      destruct (Z.of_nat (length pl) <=? 0) eqn:Hn; [|discriminate].
      apply Z.leb_le in Hn. destruct pl; [congruence | simpl in Hn; lia].
    + exfalso. unfold getRandomNextTrack, Tracks, Intn in Hr. revert Hr. run_cmd.
      destruct (Z.of_nat (length pl) <=? 0) eqn:Hn; [|discriminate].
      apply Z.leb_le in Hn. destruct pl; [congruence | simpl in Hn; lia].
  - intros ->. reflexivity.
Qed.

(** The index [getNextTrack] moves to, as a number. *)
Local Abbreviation following pl i :=
  (if Z.of_nat (length pl) - 1 <=? i then 0 else i + 1).

Lemma sequential_step (pl : Playlist) (g : Gui) :
  mode (state g) = Sequential ->
  lookupPlaylist (playlists g) (currentPlaylist (state g)) = Some pl ->
  pl <> [] ->
  -1 <= currentIndexTrack (state g) ->
  exists t,
    pl !! Z.to_nat (following pl (currentIndexTrack (state g))) = Some t
    /\ playNextFromPlaylist g
       = Ok tt (playedAt (following pl (currentIndexTrack (state g))) t g)
           [EventsPlay (Some t)].
Proof.
  intros Hm Hl Hne Hi.
  assert (HN : 0 < Z.of_nat (length pl)) by (destruct pl; [congruence | simpl; lia]).
  set (i := currentIndexTrack (state g)) in *.
  assert (Hrange : 0 <= following pl i < Z.of_nat (length pl)).
  { destruct (Z.of_nat (length pl) - 1 <=? i) eqn:Hle; [lia|].
    apply Z.leb_gt in Hle. lia. }
  destruct (pl !! Z.to_nat (following pl i)) as [t|] eqn:Ht.
  2:{ apply lookup_ge_None in Ht. lia. }
  exists t. split; [reflexivity|].
  unfold playNextFromPlaylist. run_cmd. rewrite Hm, Hl.
  unfold getNextTrack, Tracks, setIndex, setState, TrackAt, play, publish. run_cmd.
  fold i.
  destruct (Z.of_nat (length pl) - 1 <=? i) eqn:Hle; cbn.
  - destruct (Z.of_nat (length pl) <=? 0) eqn:H0; [apply Z.leb_le in H0; lia|].
    rewrite Ht. reflexivity.
  - destruct ((i + 1 <? 0) || (Z.of_nat (length pl) <=? i + 1)) eqn:Hb.
    { apply orb_true_iff in Hb as [Hb|Hb];
        [apply Z.ltb_lt in Hb | apply Z.leb_le in Hb]; lia. }
    rewrite Ht. reflexivity.
Qed.

(** Sequential mode with the selected playlist in the collection, not
    empty, and a cursor at -1 or above: [playNextFromPlaylist] does not
    panic; it moves the cursor to the following index (to 0 from the last
    track and from any stale index past it), makes the track there the
    current one and sends it to the player. *)
Theorem sequential_step_plays_following_track (pl : Playlist) (g : Gui) :
  mode (state g) = Sequential ->
  lookupPlaylist (playlists g) (currentPlaylist (state g)) = Some pl ->
  pl <> [] ->
  -1 <= currentIndexTrack (state g) ->
  exists t,
    pl !! Z.to_nat (following pl (currentIndexTrack (state g))) = Some t
    /\ playNextFromPlaylist g
       = Ok tt (playedAt (following pl (currentIndexTrack (state g))) t g)
           [EventsPlay (Some t)].
Proof. apply sequential_step. Qed.

(** Every track of every playlist can come out of the ShuffleAll
    selection: for the entry at any position of the collection and any
    index into its tracks there are draws of the random source on which
    [getRandomNextPlaylistAndTrack] returns exactly that pair. *)
Theorem shuffle_all_reaches_every_track
    (g : Gui) (j : nat) (name : string) (pl : Playlist) (i : Z) :
  playlists g !! j = Some (name, pl) ->
  0 <= i < Z.of_nat (length pl) ->
  exists r g', getRandomNextPlaylistAndTrack (withRand r g) = Ok (name, i) g' [].
Proof.
  intros Hj Hi.
  exists (fun n => if decide (n = drawn g) then Z.of_nat j else i).
  pose proof (lookup_lt_Some _ _ _ Hj) as Hlen.
  unfold getRandomNextPlaylistAndTrack, Intn, Tracks. run_cmd.
  destruct (Z.of_nat (length (playlists g)) <=? 0) eqn:H0;
    [apply Z.leb_le in H0; lia|]. cbn.
  rewrite decide_True by reflexivity.
  rewrite Z.mod_small by lia.
  destruct (UiFacts.pickEntry_lookup (playlists g) (Z.of_nat j) 0) as (k & v & Hl & ->);
    [lia|].
  rewrite Z.sub_0_r, Nat2Z.id, Hj in Hl. injection Hl as <- <-. cbn.
  destruct (Z.of_nat (length pl) <=? 0) eqn:H1; [apply Z.leb_le in H1; lia|]. cbn.
  rewrite decide_False by lia. rewrite Z.mod_small by lia.
  eexists. reflexivity.
Qed.

(** Without a playlist to take a track from the selection panics, with
    nothing changed and nothing sent: in Sequential and Shuffle mode when
    the cursor names a playlist that is not in the collection, in
    ShuffleAll mode when the collection is empty. *)
Theorem selection_panics_without_a_playlist (g : Gui) :
  (mode (state g) <> ShuffleAll ->
   lookupPlaylist (playlists g) (currentPlaylist (state g)) = None ->
   playNextFromPlaylist g = Panic g [])
  /\ (mode (state g) = ShuffleAll ->
      playlists g = [] ->
      playNextFromPlaylist g = Panic g []).
Proof.
  split.
  - intros Hm Hl. unfold playNextFromPlaylist. run_cmd. rewrite Hl.
    destruct (mode (state g)); [reflexivity..|congruence].
  - intros Hm He. unfold playNextFromPlaylist, getRandomNextPlaylistAndTrack, Intn.
    run_cmd. rewrite Hm, He. reflexivity.
Qed.

(** The text that a status signal puts on the status line. *)
Local Abbreviation shown sig :=
  (match sig with
   | Status message => message
   | PlayTokenLost => "Play token lost"%string
   | NextPlay => ""%string
   end).

Section Statuses.

Variable hasPlaylistSelected : UiState -> bool.

(** Status and token-lost signals only write the status line: each shows
    its message, in order, and the loop goes on; cursor, mode, queue,
    current track and playlists are as before, and no track is sent to the
    player. *)
Theorem status_signals_only_write_status_line (arrivals : list Signal) (g : Gui) :
  Forall (fun sig => sig <> NextPlay) arrivals ->
  exists g',
    eventLoop hasPlaylistSelected arrivals g
    = Ok tt g' (map (fun sig => StatusShown (shown sig)) arrivals)
    /\ currentPlaylist (state g') = currentPlaylist (state g)
    /\ currentIndexTrack (state g') = currentIndexTrack (state g)
    /\ mode (state g') = mode (state g)
    /\ queue g' = queue g /\ currentTrack g' = currentTrack g
    /\ playlists g' = playlists g
    /\ currentMessage (state g')
       = default (currentMessage (state g)) (last (map (fun sig => shown sig) arrivals)).
Proof.
  intros Hall. revert g. induction Hall as [|sig rest Hsig Hall IH]; intros g.
  - exists g. repeat split; reflexivity.
  - assert (Hstep : exists g1,
      handle hasPlaylistSelected sig g = Ok tt g1 [StatusShown (shown sig)]
      /\ currentPlaylist (state g1) = currentPlaylist (state g)
      /\ currentIndexTrack (state g1) = currentIndexTrack (state g)
      /\ mode (state g1) = mode (state g)
      /\ queue g1 = queue g /\ currentTrack g1 = currentTrack g
      /\ playlists g1 = playlists g
      /\ currentMessage (state g1) = shown sig).
    { destruct sig; [| |congruence]; eexists; (split; [reflexivity|]);
        repeat split; reflexivity. }
    destruct Hstep as (g1 & Hstep & H1 & H2 & H3 & H4 & H5 & H6 & H7).
    destruct (IH g1) as (g' & Hrest & I1 & I2 & I3 & I4 & I5 & I6 & I7).
    exists g'. split.
    + cbn [eventLoop]. unfold mbind, M_bind. rewrite Hstep, Hrest. reflexivity.
    + repeat split; try congruence.
      rewrite I7, H7. cbn [map]. rewrite last_cons.
      destruct (last (map (fun sig => shown sig) rest)); reflexivity.
Qed.

End Statuses.

Section Cycle.

Variable hasPlaylistSelected : UiState -> bool.

Lemma sequential_next_play (pl : Playlist) (g : Gui) :
  queue g = [] ->
  hasPlaylistSelected (state g) = true ->
  mode (state g) = Sequential ->
  lookupPlaylist (playlists g) (currentPlaylist (state g)) = Some pl ->
  0 <= currentIndexTrack (state g) < Z.of_nat (length pl) ->
  exists g',
    handle hasPlaylistSelected NextPlay g
    = Ok tt g'
        [EventsPlay
           (pl !! Z.to_nat ((currentIndexTrack (state g) + 1) mod Z.of_nat (length pl)))]
    /\ currentIndexTrack (state g')
       = (currentIndexTrack (state g) + 1) mod Z.of_nat (length pl)
    /\ currentPlaylist (state g') = currentPlaylist (state g)
    /\ mode (state g') = mode (state g)
    /\ queue g' = queue g /\ playlists g' = playlists g.
Proof.
  intros Hq Hsel Hm Hl Hi.
  assert (Hne : pl <> []) by (intros ->; simpl in Hi; lia).
  destruct (sequential_step pl g Hm Hl Hne) as (t & Ht & Hplay); [lia|].
  assert (Hf : following pl (currentIndexTrack (state g))
               = (currentIndexTrack (state g) + 1) mod Z.of_nat (length pl)).
  { destruct (Z.of_nat (length pl) - 1 <=? currentIndexTrack (state g)) eqn:Hle.
    - apply Z.leb_le in Hle.
      replace (currentIndexTrack (state g) + 1) with (Z.of_nat (length pl)) by lia.
      rewrite Z_mod_same_full. reflexivity.
    - apply Z.leb_gt in Hle. rewrite Z.mod_small by lia. reflexivity. }
  rewrite Hf in Ht, Hplay.
  eexists. split.
  - cbn [handle]. unfold mbind at 1, M_bind at 1.
    rewrite (UiFacts.playNext_empty_queue hasPlaylistSelected g Hq), Hsel.
    unfold mbind, M_bind. rewrite Hplay, Ht. reflexivity.
  - cbn. auto.
Qed.

(** Sequential playback goes round the playlist. From an index [i] of a
    selected playlist of [N] tracks, with an empty queue, [k] next-play
    signals play the tracks at [(i+1) mod N], ..., [(i+k) mod N] in this
    order and leave the cursor at [(i+k) mod N]; after [N] of them the
    cursor is back where it started. *)
Theorem sequential_playback_goes_round (pl : Playlist) (k : nat) (g : Gui) :
  queue g = [] ->
  mode (state g) = Sequential ->
  lookupPlaylist (playlists g) (currentPlaylist (state g)) = Some pl ->
  0 <= currentIndexTrack (state g) < Z.of_nat (length pl) ->
  (forall st, currentPlaylist st = currentPlaylist (state g) ->
              hasPlaylistSelected st = true) ->
  exists g',
    nextTimes hasPlaylistSelected k g
    = Ok tt g'
        (map (fun j => EventsPlay
                         (pl !! Z.to_nat ((currentIndexTrack (state g) + Z.of_nat j)
                                          mod Z.of_nat (length pl))))
             (seq 1 k))
    /\ currentIndexTrack (state g')
       = (currentIndexTrack (state g) + Z.of_nat k) mod Z.of_nat (length pl)
    /\ (k = length pl -> currentIndexTrack (state g') = currentIndexTrack (state g)).
Proof.
  intros Hq Hm Hl Hi Hsel.
  assert (Hgen : exists g',
    nextTimes hasPlaylistSelected k g
    = Ok tt g'
        (map (fun j => EventsPlay
                         (pl !! Z.to_nat ((currentIndexTrack (state g) + Z.of_nat j)
                                          mod Z.of_nat (length pl))))
             (seq 1 k))
    /\ currentIndexTrack (state g')
       = (currentIndexTrack (state g) + Z.of_nat k) mod Z.of_nat (length pl)).
  { revert g Hq Hm Hl Hi Hsel. induction k as [|k IH]; intros g Hq Hm Hl Hi Hsel.
    - exists g. split; [reflexivity|]. rewrite Z.add_0_r, Z.mod_small by lia.
      reflexivity.
    - destruct (sequential_next_play pl g Hq (Hsel _ eq_refl) Hm Hl Hi)
        as (g1 & Hstep & Hi1 & Hp1 & Hm1 & Hq1 & Hpl1).
      assert (HN : 0 < Z.of_nat (length pl)) by lia.
      destruct (IH g1) as (g' & Hrest & Hi'); try congruence.
      + rewrite Hi1. apply Z.mod_pos_bound. exact HN.
      + intros st Hst. apply Hsel. congruence.
      + exists g'. split.
        * unfold nextTimes in *. cbn [replicate eventLoop].
          unfold mbind at 1, M_bind at 1. rewrite Hstep, Hrest.
          f_equal. cbn [app seq map]. f_equal.
          rewrite <- (seq_shift k 1), map_map. apply map_ext. intros j.
          rewrite Hi1, Z.add_mod_idemp_l by lia.
          replace (currentIndexTrack (state g) + 1 + Z.of_nat j)
            with (currentIndexTrack (state g) + Z.of_nat (S j)) by lia.
          reflexivity.
        * rewrite Hi', Hi1, Z.add_mod_idemp_l by lia. f_equal. lia. }
  destruct Hgen as (g' & Hrun & Hidx). exists g'. split; [exact Hrun|].
  split; [exact Hidx|]. intros ->. rewrite Hidx.
  rewrite <- Z.add_mod_idemp_r, Z_mod_same_full, Z.add_0_r by lia.
  apply Z.mod_small. exact Hi.
Qed.

End Cycle.

Lemma sequential_step_plays_following_track_witness :
  let g := sampleGui Sequential 7 [] in
  mode (state g) = Sequential
  /\ lookupPlaylist (playlists g) (currentPlaylist (state g)) = Some [song; goneSong]
  /\ exists t, playNextFromPlaylist g = Ok tt (playedAt 0 t g) [EventsPlay (Some t)].
Proof.
  intros g. split; [reflexivity|]. split; [reflexivity|].
  destruct (sequential_step_plays_following_track [song; goneSong] g)
    as (t & _ & Hplay); [reflexivity | reflexivity | discriminate | cbn; lia |].
  exists t. exact Hplay.
Defined.

Lemma shuffle_all_reaches_every_track_witness :
  exists r g',
    getRandomNextPlaylistAndTrack (withRand r (sampleGui ShuffleAll 0 []))
    = Ok ("full"%string, 1) g' [].
Proof.
  apply (shuffle_all_reaches_every_track (sampleGui ShuffleAll 0 []) 1 "full"
           [song; goneSong] 1); [reflexivity | cbn; lia].
Defined.

Lemma status_signals_only_write_status_line_witness :
  exists g',
    eventLoop selected [Status "Paused"; PlayTokenLost] (sampleGui Shuffle 1 [song])
    = Ok tt g' [StatusShown "Paused"; StatusShown "Play token lost"]
    /\ currentIndexTrack (state g') = 1 /\ queue g' = [song].
Proof.
  destruct (status_signals_only_write_status_line selected
              [Status "Paused"; PlayTokenLost] (sampleGui Shuffle 1 [song]))
    as (g' & Hrun & _ & Hi & _ & Hq & _).
  - repeat constructor; discriminate.
  - exists g'. auto.
Defined.

Lemma sequential_playback_goes_round_witness :
  exists g',
    nextTimes selected 2 (sampleGui Sequential 1 [])
    = Ok tt g' [EventsPlay (Some song); EventsPlay (Some goneSong)]
    /\ currentIndexTrack (state g') = 1.
Proof.
  destruct (sequential_playback_goes_round selected [song; goneSong] 2
              (sampleGui Sequential 1 []))
    as (g' & Hrun & _ & Hback); try reflexivity.
  - cbn. lia.
  - intros st Hst. unfold selected. rewrite Hst. reflexivity.
  - exists g'. split; [exact Hrun | exact (Hback eq_refl)].
Defined.

Lemma shuffle_all_ok_without_empty_playlists_witness :
  let g := {| queue := []; state := state (sampleGui ShuffleAll 0 []);
              playlists := [("full"%string, [song; goneSong])];
              currentTrack := None; rand := fun _ => 3; drawn := 0 |} in
  exists name i g' pl,
    getRandomNextPlaylistAndTrack g = Ok (name, i) g' []
    /\ (name, pl) ∈ playlists g
    /\ 0 <= i < Z.of_nat (length pl).
Proof.
  intros g. apply (UiFacts.shuffle_all_ok_without_empty_playlists g).
  - discriminate.
  - repeat constructor. discriminate.
Defined.

End UiMore.

(** ** More of the keyboard: the counter, the fall-through, the table *)

Module KeysMore.

Import Keys.

Section Dispatch.

Context {W : Type}.
Variable run : Handler -> string -> Z -> W -> W * error.
Variable keyboard : Keyboard.

Local Abbreviation bound name buf :=
  (SequentialKeys keyboard !! (name +:+ " " +:+ keyCombination buf)).

Lemma decimal_steps (digits : list Z) (c : Z) :
  foldl counterStep c digits = foldl (fun c n => c * 10 + n) c digits.
Proof.
  revert c. induction digits as [|n digits IH]; intros c; [reflexivity|].
  cbn [foldl]. rewrite IH. f_equal. unfold counterStep.
  destruct (c =? 0) eqn:Hc; [|reflexivity]. apply Z.eqb_eq in Hc. lia.
Qed.

(** Up to eighteen digits typed from a zero counter leave in the counter
    the decimal number they spell (leading zeros count for nothing), and
    touch neither the key buffer nor the world nor any handler. *)
Theorem counter_is_the_number_typed name (digits : list Z) (d : Dispatcher W) :
  multipleKeysNumber d = 0 ->
  Forall (fun n => 0 <= n <= 9) digits ->
  (length digits <= 18)%nat ->
  typed run keyboard name (Digit <$> digits) d
  = {| multipleKeysBuffer := multipleKeysBuffer d;
       multipleKeysNumber := foldl (fun c n => c * 10 + n) 0 digits;
       world := world d; invoked := invoked d; peak := peak d |}.
Proof.
  intros H0 Hdig Hlen. rewrite KeysFacts.typed_digits, H0.
  destruct (KeysFacts.counter_no_overflow digits 0 0 Hdig) as [-> _];
    [simpl; lia | lia |].
  rewrite decimal_steps. reflexivity.
Qed.

(** A pair that is not bound falls through to the second key: when [a] is
    held, [a b] is not bound and [b] alone is, [keyPressed b] calls the
    handler of [b] once, with the counter as typed, and leaves an empty
    buffer and a zero counter. *)
Theorem failed_combo_fires_second_key a b h name (d : Dispatcher W) :
  multipleKeysBuffer d = [a] ->
  bound name [a; b] = None ->
  bound name [b] = Some h ->
  keyPressed run keyboard b name d
  = ({| multipleKeysBuffer := []; multipleKeysNumber := 0;
        world := fst (run h name (multipleKeysNumber d) (world d));
        invoked := invoked d ++ [h];
        peak := Nat.max (peak d) 2 |},
     snd (run h name (multipleKeysNumber d) (world d))).
Proof.
  intros Hd Hab Hb.
  rewrite KeysFacts.keyPressed_fallback; rewrite ?Hd; [| exact Hab | discriminate].
  rewrite (KeysFacts.keyPressed_match _ _ _ _ _ h) by exact Hb.
  unfold callHandler. cbn. rewrite Hd. cbn. do 2 f_equal. lia.
Qed.

End Dispatch.

Lemma counter_is_the_number_typed_witness :
  typed logRun defaultKeyboard "main" (Digit <$> [0; 4; 2]) (idle [])
  = {| multipleKeysBuffer := []; multipleKeysNumber := 42; world := [];
       invoked := []; peak := 0 |}.
Proof.
  apply (counter_is_the_number_typed logRun defaultKeyboard "main" [0; 4; 2] (idle []));
    [reflexivity | repeat constructor; lia | simpl; lia].
Defined.

Lemma failed_combo_fires_second_key_witness :
  SequentialKeys defaultKeyboard !! ("main" +:+ " " +:+ keyCombination [100; 112]) = None
  /\ SequentialKeys defaultKeyboard !! ("main" +:+ " " +:+ keyCombination [112])
     = Some pauseTrackCommand
  /\ keyPressed logRun defaultKeyboard 112 "main" (appendKey 100 (idle []))
     = ({| multipleKeysBuffer := []; multipleKeysNumber := 0; world := [0];
           invoked := [pauseTrackCommand]; peak := 2 |}, None).
Proof.
  assert (H1 : SequentialKeys defaultKeyboard
                 !! ("main" +:+ " " +:+ keyCombination [100; 112]) = None)
    by (vm_compute; reflexivity).
  assert (H2 : SequentialKeys defaultKeyboard
                 !! ("main" +:+ " " +:+ keyCombination [112]) = Some pauseTrackCommand)
    by (vm_compute; reflexivity).
  split; [exact H1|]. split; [exact H2|].
  exact (failed_combo_fires_second_key logRun defaultKeyboard 100 112
           pauseTrackCommand "main" (appendKey 100 (idle [])) eq_refl H1 H2).
Defined.

(** *** Filling [ConfiguredKeys] *)

Lemma addKey_used key c' kb c :
  isUsed (addKey key c' kb) c = if decide (c' = c) then true else isUsed kb c.
Proof.
  unfold isUsed, addKey. cbn. rewrite lookup_insert. destruct (decide (c' = c)); reflexivity.
Qed.

Lemma addKey_commands key c' kb k :
  commandsOn (addKey key c' kb) k
  = commandsOn kb k ++ (if decide (key = k) then [c'] else []).
Proof.
  unfold commandsOn, addKey. cbn. rewrite lookup_insert.
  destruct (decide (key = k)) as [->|]; [reflexivity|]. rewrite app_nil_r. reflexivity.
Qed.

Lemma addKeys_used keys c' kb c :
  isUsed kb c = true -> isUsed (foldl (fun k key => addKey key c' k) kb keys) c = true.
Proof.
  revert kb. induction keys as [|key keys IH]; intros kb Hu; [exact Hu|].
  cbn [foldl]. apply IH. rewrite addKey_used, Hu. destruct (decide _); reflexivity.
Qed.

Lemma addKeys_uses keys c' kb :
  keys <> [] -> isUsed (foldl (fun k key => addKey key c' k) kb keys) c' = true.
Proof.
  destruct keys as [|key keys]; [congruence|]. intros _. cbn [foldl].
  apply addKeys_used. rewrite addKey_used, decide_True by reflexivity. reflexivity.
Qed.

Lemma addKeys_commands keys c' kb k c :
  c <> c' ->
  c ∈ commandsOn (foldl (fun k0 key => addKey key c' k0) kb keys) k
  <-> c ∈ commandsOn kb k.
Proof.
  intros Hne. revert kb. induction keys as [|key keys IH]; intros kb; [reflexivity|].
  cbn [foldl]. rewrite IH, addKey_commands, elem_of_app.
  destruct (decide (key = k)); [rewrite list_elem_of_singleton | rewrite elem_of_nil];
    tauto.
Qed.

Lemma addKeys_keeps keys c' kb k c :
  c ∈ commandsOn kb k ->
  c ∈ commandsOn (foldl (fun k0 key => addKey key c' k0) kb keys) k.
Proof.
  revert kb. induction keys as [|key keys IH]; intros kb Hin; [exact Hin|].
  cbn [foldl]. apply IH. rewrite addKey_commands. apply elem_of_app. auto.
Qed.

Lemma unlessUsed_used c' keys kb c :
  isUsed kb c = true -> isUsed (unlessUsed c' keys kb) c = true.
Proof.
  intros Hu. unfold unlessUsed. destruct (isUsed kb c'); [exact Hu|].
  apply addKeys_used, Hu.
Qed.

Lemma unlessUsed_uses c' keys kb :
  keys <> [] -> isUsed (unlessUsed c' keys kb) c' = true.
Proof.
  intros Hne. unfold unlessUsed. destruct (isUsed kb c') eqn:Hu; [exact Hu|].
  apply addKeys_uses, Hne.
Qed.

(** The loop that [defaultValues] is, over any list of defaults. *)
Local Abbreviation defaultsFrom l kb :=
  (foldl (fun k '(c, keys) => unlessUsed c keys k) kb l).

Lemma defaults_used (l : list (string * list string)) kb c :
  isUsed kb c = true -> isUsed (defaultsFrom l kb) c = true.
Proof.
  revert kb. induction l as [|[c' keys] l IH]; intros kb Hu; [exact Hu|].
  cbn [foldl]. apply IH, unlessUsed_used, Hu.
Qed.

Lemma defaults_use (l : list (string * list string)) kb c keys :
  (c, keys) ∈ l -> keys <> [] -> isUsed (defaultsFrom l kb) c = true.
Proof.
  revert kb. induction l as [|[c' keys'] l IH]; intros kb Hin Hne.
  - apply elem_of_nil in Hin. destruct Hin.
  - cbn [foldl]. apply elem_of_cons in Hin as [[= <- <-]|Hin].
    + apply defaults_used, unlessUsed_uses, Hne.
    + apply IH; assumption.
Qed.

Lemma defaults_fixed (l : list (string * list string)) kb :
  Forall (fun e => isUsed kb (fst e) = true) l -> defaultsFrom l kb = kb.
Proof.
  induction 1 as [|[c keys] l Hc Hl IH]; [reflexivity|].
  cbn [foldl]. cbn in Hc. unfold unlessUsed at 2. rewrite Hc. exact IH.
Qed.

Lemma defaults_respect (l : list (string * list string)) kb c k :
  isUsed kb c = true ->
  c ∈ commandsOn (defaultsFrom l kb) k <-> c ∈ commandsOn kb k.
Proof.
  revert kb. induction l as [|[c' keys] l IH]; intros kb Hu; [reflexivity|].
  cbn [foldl]. rewrite IH by (apply unlessUsed_used, Hu).
  unfold unlessUsed. destruct (isUsed kb c') eqn:Hu'; [reflexivity|].
  apply addKeys_commands. congruence.
Qed.

(** After [defaultValues] every command has a key, whatever the key file
    held; so a second run of [defaultValues] changes nothing. *)
Theorem defaultValues_gives_every_command_a_key (kb : Keyboard) :
  Forall (fun c => isUsed (defaultValues kb) c = true) allCommands
  /\ defaultValues (defaultValues kb) = defaultValues kb.
Proof.
  assert (Hall : Forall (fun c => isUsed (defaultValues kb) c = true) allCommands).
  { unfold defaultValues, allCommands.
    repeat (constructor;
            [eapply defaults_use;
             [apply list_elem_of_In; cbn [In];
              repeat first [left; reflexivity | right]
             |discriminate]|]).
    constructor. }
  split; [exact Hall|].
  unfold defaultValues at 1. apply defaults_fixed.
  unfold allCommands in Hall. rewrite Forall_forall in Hall.
  repeat (constructor; [apply Hall; set_solver|]).
  constructor.
Qed.

(** A command that already has a key (from the key file) gets no default
    key: on every key, [defaultValues] neither adds nor removes it. *)
Theorem defaultValues_leaves_mapped_command (kb : Keyboard) (c k : string) :
  isUsed kb c = true ->
  c ∈ commandsOn (defaultValues kb) k <-> c ∈ commandsOn kb k.
Proof. apply defaults_respect. Qed.

(** Every entry of the key file is in the table after
    [loadKeyFunctions]: its command is used and is one of the commands on
    its key; what was on a key before stays on it. *)
Theorem loadKeyFunctions_records_every_entry (fileContent : list KeyEntry) kb :
  (forall e, e ∈ fileContent ->
     isUsed (loadKeyFunctions fileContent kb) (Command e) = true
     /\ Command e ∈ commandsOn (loadKeyFunctions fileContent kb) (Key e))
  /\ (forall k c, c ∈ commandsOn kb k ->
                  c ∈ commandsOn (loadKeyFunctions fileContent kb) k).
Proof.
  assert (Hkeep : forall fc kb0 k c, c ∈ commandsOn kb0 k ->
                    c ∈ commandsOn (loadKeyFunctions fc kb0) k).
  { induction fc as [|e fc IH]; intros kb0 k c Hin; [exact Hin|].
    cbn [loadKeyFunctions foldl]. apply IH. rewrite addKey_commands.
    apply elem_of_app. auto. }
  assert (Hused : forall fc kb0 c, isUsed kb0 c = true ->
                    isUsed (loadKeyFunctions fc kb0) c = true).
  { induction fc as [|e fc IH]; intros kb0 c Hu; [exact Hu|].
    cbn [loadKeyFunctions foldl]. apply IH. rewrite addKey_used, Hu.
    destruct (decide _); reflexivity. }
  split; [|apply Hkeep].
  revert kb. induction fileContent as [|e0 fc IH]; intros kb e Hin.
  - apply elem_of_nil in Hin. destruct Hin.
  - apply elem_of_cons in Hin as [->|Hin]; [|apply (IH _ _ Hin)].
    unfold loadKeyFunctions. cbn [foldl]. split.
    + apply Hused. rewrite addKey_used, decide_True by reflexivity. reflexivity.
    + apply Hkeep. rewrite addKey_commands, decide_True by reflexivity.
      apply elem_of_app. right. apply list_elem_of_singleton. reflexivity.
Qed.

Lemma defaultValues_leaves_mapped_command_witness :
  let kb := loadKeyFunctions [{| Key := "x"; Command := RemoveTrack |}]
              {| ConfiguredKeys := ∅; UsedFunctions := ∅; SequentialKeys := ∅ |} in
  isUsed kb RemoveTrack = true
  /\ (RemoveTrack ∉ commandsOn kb "dd")
  /\ (RemoveTrack ∉ commandsOn (defaultValues kb) "dd").
Proof.
  intros kb.
  assert (Hu : isUsed kb RemoveTrack = true) by reflexivity.
  assert (Hn : RemoveTrack ∉ commandsOn kb "dd").
  { vm_compute. apply not_elem_of_nil. }
  split; [exact Hu|]. split; [exact Hn|].
  intros Hin. apply Hn.
  apply (defaultValues_leaves_mapped_command kb RemoveTrack "dd" Hu). exact Hin.
Defined.

(** *** Filling [SequentialKeys] *)

Section Configure.

Variables VIEW_PLAYLISTS VIEW_TRACKS VIEW_QUEUE : string.
Variables KeyEnter KeySpace KeyArrowUp KeyArrowDown KeyArrowLeft KeyArrowRight : rune.

Local Abbreviation translate :=
  (translateKey KeyEnter KeySpace KeyArrowUp KeyArrowDown KeyArrowLeft KeyArrowRight).
Local Abbreviation bind1 :=
  (bindOne VIEW_PLAYLISTS VIEW_TRACKS VIEW_QUEUE).
Local Abbreviation configure :=
  (configureKey VIEW_PLAYLISTS VIEW_TRACKS VIEW_QUEUE
     KeyEnter KeySpace KeyArrowUp KeyArrowDown KeyArrowLeft KeyArrowRight).

(** The two nested loops of [configureKey] over any list of entries. *)
Local Abbreviation configureFrom h command view entries kb :=
  (foldl (fun k '(key, commands) =>
            foldl (fun k' c => bind1 h command view (translate key) c k') k commands)
     kb entries).

(** The place in [SequentialKeys] where a key is bound for a view. *)
Local Abbreviation place view key := (view +:+ " " +:+ key).

(** One [bindOne] writes [h] or nothing, and only to [SequentialKeys]. *)
Lemma bindOne_effect h command view key c kb :
  ConfiguredKeys (bind1 h command view key c kb) = ConfiguredKeys kb
  /\ UsedFunctions (bind1 h command view key c kb) = UsedFunctions kb
  /\ forall p, SequentialKeys (bind1 h command view key c kb) !! p = Some h
               \/ SequentialKeys (bind1 h command view key c kb) !! p
                  = SequentialKeys kb !! p.
Proof.
  unfold bindOne. destruct (decide (c = command)); [|auto].
  destruct (decide (view = ""%string)); cbn; (split; [reflexivity|]);
    (split; [reflexivity|]); intros p; rewrite ?lookup_insert;
    repeat destruct (decide _); auto.
Qed.

Lemma bindOne_not_command h command view key c kb :
  c <> command -> bind1 h command view key c kb = kb.
Proof.
  intros Hne. unfold bindOne. destruct (decide (c = command)); [congruence|reflexivity].
Qed.

Lemma bindOne_binds h command view key kb :
  let kb' := bind1 h command view key command kb in
  if decide (view = ""%string)
  then SequentialKeys kb' !! place VIEW_PLAYLISTS key = Some h
       /\ SequentialKeys kb' !! place VIEW_QUEUE key = Some h
       /\ SequentialKeys kb' !! place VIEW_TRACKS key = Some h
  else SequentialKeys kb' !! place view key = Some h.
Proof.
  unfold bindOne. destruct (decide (command = command)); [|congruence].
  destruct (decide (view = ""%string)); cbn; rewrite ?lookup_insert;
    repeat destruct (decide _); auto; congruence.
Qed.

Lemma inner_effect h command view key commands kb :
  let kb' := foldl (fun k' c => bind1 h command view key c k') kb commands in
  ConfiguredKeys kb' = ConfiguredKeys kb
  /\ UsedFunctions kb' = UsedFunctions kb
  /\ forall p, SequentialKeys kb' !! p = Some h
               \/ SequentialKeys kb' !! p = SequentialKeys kb !! p.
Proof.
  revert kb. induction commands as [|c commands IH]; intros kb; cbn [foldl]; [auto|].
  destruct (IH (bind1 h command view key c kb)) as (H1 & H2 & H3).
  destruct (bindOne_effect h command view key c kb) as (B1 & B2 & B3).
  cbv zeta. split; [congruence|]. split; [congruence|].
  intros p. destruct (H3 p) as [Hp|Hp]; [auto|]. rewrite Hp. apply B3.
Qed.

Lemma outer_effect h command view entries kb :
  let kb' := configureFrom h command view entries kb in
  ConfiguredKeys kb' = ConfiguredKeys kb
  /\ UsedFunctions kb' = UsedFunctions kb
  /\ forall p, SequentialKeys kb' !! p = Some h
               \/ SequentialKeys kb' !! p = SequentialKeys kb !! p.
Proof.
  revert kb. induction entries as [|[key commands] entries IH]; intros kb;
    cbn [foldl]; [auto|].
  set (kb1 := foldl (fun k' c => bind1 h command view (translate key) c k') kb commands).
  destruct (IH kb1) as (H1 & H2 & H3).
  destruct (inner_effect h command view (translate key) commands kb) as (B1 & B2 & B3).
  fold kb1 in B1, B2, B3. cbv zeta in *.
  split; [congruence|]. split; [congruence|].
  intros p. destruct (H3 p) as [Hp|Hp]; [auto|]. rewrite Hp. apply B3.
Qed.

(** [configureKey] changes nothing but [SequentialKeys], and there every
    place holds afterwards either the handler just configured or what it
    held before. When no configured key carries the command, the table is
    returned as it was. *)
Theorem configureKey_only_writes_its_handler h command view kb :
  ConfiguredKeys (configure h command view kb) = ConfiguredKeys kb
  /\ UsedFunctions (configure h command view kb) = UsedFunctions kb
  /\ (forall p, SequentialKeys (configure h command view kb) !! p = Some h
                \/ SequentialKeys (configure h command view kb) !! p
                   = SequentialKeys kb !! p)
  /\ ((forall k, command ∉ commandsOn kb k) -> configure h command view kb = kb).
Proof.
  destruct (outer_effect h command view (map_to_list (ConfiguredKeys kb)) kb)
    as (H1 & H2 & H3).
  split; [exact H1|]. split; [exact H2|]. split; [exact H3|].
  intros Hnone. unfold configureKey.
  assert (Hall : Forall (fun e => command ∉ snd e) (map_to_list (ConfiguredKeys kb))).
  { apply Forall_forall. intros [k cs] Hin. apply elem_of_map_to_list in Hin.
    specialize (Hnone k). unfold commandsOn in Hnone. rewrite Hin in Hnone.
    exact Hnone. }
  revert Hall. generalize (map_to_list (ConfiguredKeys kb)) as entries.
  induction entries as [|[key commands] entries IH]; intros Hall; [reflexivity|].
  apply Forall_cons in Hall as [Hc Hall]. cbn [foldl]. cbn in Hc.
  assert (Hin : foldl (fun k' c => bind1 h command view (translate key) c k') kb commands
                = kb).
  { clear -Hc. induction commands as [|c commands IHc]; [reflexivity|].
    cbn [foldl]. rewrite bindOne_not_command.
    - apply IHc. intros Hin. apply Hc. apply elem_of_cons. auto.
    - intros ->. apply Hc. apply elem_of_cons. auto. }
  rewrite Hin. apply IH, Hall.
Qed.

Lemma inner_binds h command view key commands kb :
  command ∈ commands ->
  let kb' := foldl (fun k' c => bind1 h command view key c k') kb commands in
  if decide (view = ""%string)
  then SequentialKeys kb' !! place VIEW_PLAYLISTS key = Some h
       /\ SequentialKeys kb' !! place VIEW_QUEUE key = Some h
       /\ SequentialKeys kb' !! place VIEW_TRACKS key = Some h
  else SequentialKeys kb' !! place view key = Some h.
Proof.
  revert kb. induction commands as [|c commands IH]; intros kb Hin.
  - apply elem_of_nil in Hin. destruct Hin.
  - cbn [foldl]. cbv zeta. apply elem_of_cons in Hin as [<-|Hin].
    + pose proof (bindOne_binds h command view key kb) as Hb. cbv zeta in Hb.
      destruct (inner_effect h command view key commands
                  (bind1 h command view key command kb)) as (_ & _ & Hk).
      cbv zeta in Hk.
      destruct (decide (view = ""%string)).
      * destruct Hb as (Hb1 & Hb2 & Hb3).
        repeat split;
          match goal with |- _ !! ?p = _ => destruct (Hk p) as [Hp|Hp] end;
          congruence.
      * destruct (Hk (place view key)) as [Hp|Hp]; congruence.
    + apply IH, Hin.
Qed.

(** A configured key that carries the command is bound by [configureKey]:
    in the given view, or in the three list views when the view is
    the empty string. *)
Theorem configureKey_binds_configured_key h command view kb key commands :
  ConfiguredKeys kb !! key = Some commands ->
  command ∈ commands ->
  let table :=
    SequentialKeys
      (configureKey VIEW_PLAYLISTS VIEW_TRACKS VIEW_QUEUE KeyEnter KeySpace
         KeyArrowUp KeyArrowDown KeyArrowLeft KeyArrowRight h command view kb) in
  let bound :=
    translateKey KeyEnter KeySpace KeyArrowUp KeyArrowDown KeyArrowLeft
      KeyArrowRight key in
  if decide (view = ""%string)
  then table !! (VIEW_PLAYLISTS +:+ " " +:+ bound) = Some h
       /\ table !! (VIEW_QUEUE +:+ " " +:+ bound) = Some h
       /\ table !! (VIEW_TRACKS +:+ " " +:+ bound) = Some h
  else table !! (view +:+ " " +:+ bound) = Some h.
Proof.
  intros Hk Hc table bound. subst table bound. revert Hk Hc.
  intros Hk Hc. unfold configureKey.
  apply elem_of_map_to_list in Hk. revert Hk.
  generalize (map_to_list (ConfiguredKeys kb)) as entries. intros entries. revert kb.
  induction entries as [|[key0 commands0] entries IH]; intros kb Hin.
  - apply elem_of_nil in Hin. destruct Hin.
  - cbn [foldl]. apply elem_of_cons in Hin as [[= <- <-]|Hin].
    + pose proof (inner_binds h command view (translate key) commands kb Hc) as Hb.
      cbv zeta in Hb.
      set (kb1 := foldl (fun k' c => bind1 h command view (translate key) c k')
                    kb commands) in *.
      destruct (outer_effect h command view entries kb1) as (_ & _ & Hk).
      cbv zeta in Hk.
      destruct (decide (view = ""%string)).
      * destruct Hb as (Hb1 & Hb2 & Hb3).
        repeat split;
          match goal with |- _ !! ?p = _ => destruct (Hk p) as [Hp|Hp] end;
          congruence.
      * destruct (Hk (place view (translate key))) as [Hp|Hp]; congruence.
    + apply IH, Hin.
Qed.

End Configure.

Lemma configureKey_binds_configured_key_witness :
  let kb := defaultValues
              {| ConfiguredKeys := ∅; UsedFunctions := ∅; SequentialKeys := ∅ |} in
  ConfiguredKeys kb !! "<enter>"%string = Some [PlaySelectedTrack]
  /\ SequentialKeys
       (configureKey "side" "main" "queue" 13 32 65517 65516 65515 65514
          playSelectedTrack PlaySelectedTrack "main" kb)
     !! ("main" +:+ " " +:+ string_of_rune 13) = Some playSelectedTrack.
Proof.
  intros kb.
  assert (Hk : ConfiguredKeys kb !! "<enter>"%string = Some [PlaySelectedTrack])
    by (vm_compute; reflexivity).
  split; [exact Hk|].
  exact (configureKey_binds_configured_key "side" "main" "queue" 13 32 65517 65516
           65515 65514 playSelectedTrack PlaySelectedTrack "main" kb "<enter>"
           [PlaySelectedTrack] Hk (list_elem_of_here _ _)).
Defined.

End KeysMore.

(** ** The playlist filter *)

Module FilterFacts.

Import Player.

Local Abbreviation chars := list_ascii_of_string.

(** The string is empty or begins with a character that [Trim] keeps. *)
Local Abbreviation startsClean cut s :=
  (match s with EmptyString => True | String c _ => cut c = false end).

Section Trimming.

Variable cut : ascii -> bool.

Lemma TrimLeft_startsClean s : startsClean cut (TrimLeft cut s).
Proof.
  induction s as [|c s IH]; [exact I|]. cbn [TrimLeft].
  destruct (cut c) eqn:Hc; [exact IH | exact Hc].
Qed.

Lemma TrimLeft_fix s : startsClean cut s -> TrimLeft cut s = s.
Proof. destruct s as [|c s]; [reflexivity|]. cbn. intros ->. reflexivity. Qed.

Lemma TrimRight_startsClean s : startsClean cut s -> startsClean cut (TrimRight cut s).
Proof.
  destruct s as [|c s]; [exact id|]. cbn [TrimRight]. intros Hc.
  destruct (TrimRight cut s); [rewrite Hc|]; exact Hc.
Qed.

Lemma TrimRight_idem s : TrimRight cut (TrimRight cut s) = TrimRight cut s.
Proof.
  induction s as [|c s IH]; [reflexivity|]. cbn [TrimRight].
  destruct (TrimRight cut s) as [|c' k] eqn:Hk.
  - destruct (cut c) eqn:Hc; [reflexivity|]. cbn. rewrite Hc. reflexivity.
  - cbn [TrimRight] in *. rewrite IH. reflexivity.
Qed.

Lemma Trim_idem s : Trim cut (Trim cut s) = Trim cut s.
Proof.
  unfold Trim. rewrite (TrimLeft_fix (TrimRight cut (TrimLeft cut s))).
  - apply TrimRight_idem.
  - apply TrimRight_startsClean, TrimLeft_startsClean.
Qed.

Lemma TrimLeft_chars s a : In a (chars (TrimLeft cut s)) -> In a (chars s).
Proof.
  induction s as [|c s IH]; [exact id|]. cbn [TrimLeft].
  destruct (cut c); [|exact id]. intros Hin. right. exact (IH Hin).
Qed.

Lemma TrimRight_chars s a : In a (chars (TrimRight cut s)) -> In a (chars s).
Proof.
  induction s as [|c s IH]; [exact id|]. cbn [TrimRight].
  destruct (TrimRight cut s) as [|c' k].
  - destruct (cut c); cbn; tauto.
  - cbn in *. tauto.
Qed.

Lemma Trim_chars s a : In a (chars (Trim cut s)) -> In a (chars s).
Proof. intros Hin. apply TrimLeft_chars, TrimRight_chars, Hin. Qed.

Lemma Trim_skips c s : cut c = true -> Trim cut (String c s) = Trim cut s.
Proof. intros Hc. unfold Trim. cbn [TrimLeft]. rewrite Hc. reflexivity. Qed.

End Trimming.

Section Splitting.

Variable sep : ascii.

Lemma Split_not_nil s : Split sep s <> [].
Proof.
  destruct s as [|c s]; [discriminate|]. cbn [Split].
  destruct (Ascii.eqb c sep); [discriminate|]. destruct (Split sep s); discriminate.
Qed.

Lemma Split_pieces s piece :
  piece ∈ Split sep s -> ~ In sep (chars piece).
Proof.
  revert piece. induction s as [|c s IH]; intros piece Hin.
  - apply list_elem_of_singleton in Hin as ->. exact id.
  - cbn [Split] in Hin. destruct (Ascii.eqb c sep) eqn:Hc.
    + apply elem_of_cons in Hin as [->|Hin]; [exact id | exact (IH _ Hin)].
    + apply Ascii.eqb_neq in Hc. destruct (Split sep s) as [|p ps] eqn:Hs.
      * apply list_elem_of_singleton in Hin as ->. cbn. tauto.
      * apply elem_of_cons in Hin as [->|Hin].
        -- cbn. intros [Heq|Hp]; [congruence|].
           apply (IH p); [left|exact Hp].
        -- apply IH. right. exact Hin.
Qed.

Lemma Split_before pre s :
  ~ In sep (chars pre) ->
  Split sep (pre +:+ s)
  = match Split sep s with
    | piece :: pieces => (pre +:+ piece) :: pieces
    | [] => []
    end.
Proof.
  induction pre as [|c pre IH]; intros Hpre.
  - change (""%string +:+ s) with s.
    destruct (Split sep s) eqn:Hs; [destruct (Split_not_nil _ Hs)|reflexivity].
  - change (String c pre +:+ s) with (String c (pre +:+ s)). cbn [Split]. cbn in Hpre.
    destruct (Ascii.eqb c sep) eqn:Hc; [apply Ascii.eqb_eq in Hc; tauto|].
    rewrite IH by tauto.
    destruct (Split sep s) eqn:Hs; [destruct (Split_not_nil _ Hs)|reflexivity].
Qed.

End Splitting.

(** A name that a filter can hold: no comma in it, no space at either
    end. *)
Local Abbreviation plain n :=
  (~ In ","%char (chars n) /\ Trim isSpace n = n%string).

Lemma append_empty_r (s : string) : (s +:+ "")%string = s.
Proof.
  induction s as [|c s IH]; [reflexivity|].
  change (String c s +:+ "")%string with (String c (s +:+ "")). rewrite IH. reflexivity.
Qed.

Lemma Split_joined (pre name : string) (names : list string) :
  ~ In ","%char (chars pre) ->
  Forall (fun n => ~ In ","%char (chars n)) (name :: names) ->
  Split "," (pre +:+ String.concat ", " (name :: names))
  = (pre +:+ name) :: map (String " ") names.
Proof.
  revert pre name. induction names as [|n2 names IH]; intros pre name Hpre Hall.
  - cbn [String.concat map]. apply Forall_cons in Hall as [Hn _].
    rewrite Split_before by exact Hpre.
    assert (Hs : forall t, ~ In ","%char (chars t) -> Split "," t = [t]).
    { induction t as [|c t IHt]; [reflexivity|]. cbn. intros Hc.
      destruct (Ascii.eqb c ",") eqn:He; [apply Ascii.eqb_eq in He; tauto|].
      rewrite IHt by tauto. reflexivity. }
    rewrite (Hs name Hn). reflexivity.
  - apply Forall_cons in Hall as [Hn Hall].
    change (String.concat ", " (name :: n2 :: names))
      with (name +:+ ", " +:+ String.concat ", " (n2 :: names)).
    rewrite Split_before by exact Hpre.
    rewrite (Split_before "," name) by exact Hn.
    change (", " +:+ String.concat ", " (n2 :: names))
      with (String "," (" " +:+ String.concat ", " (n2 :: names))).
    cbn [Split]. rewrite Ascii.eqb_refl.
    rewrite (IH " "%string n2); [| cbn; intros [H|[]]; discriminate | exact Hall].
    cbn [Split map]. rewrite append_empty_r. reflexivity.
Qed.

(** A filter built from names (none with a comma, none with a space at
    either end) joined by a comma and a space recovers the names, in
    order; a playlist is then on the filter exactly when its name is one
    of them. *)
Theorem filter_of_joined_names (names : list string) (old : option (list string)) :
  Forall (fun n => plain n) names ->
  String.concat ", " names <> ""%string ->
  setPlaylistFilter (String.concat ", " names) old = Some names
  /\ forall playlist,
       isOnFilter (setPlaylistFilter (String.concat ", " names) old) playlist = true
       <-> playlist ∈ names.
Proof.
  intros Hall Hne.
  assert (Hset : setPlaylistFilter (String.concat ", " names) old = Some names).
  { unfold setPlaylistFilter.
    destruct (String.eqb (String.concat ", " names) "") eqn:He;
      [apply String.eqb_eq in He; congruence|].
    destruct names as [|name names]; [cbn in Hne; congruence|].
    assert (Hcommas : Forall (fun n => ~ In ","%char (chars n)) (name :: names)).
    { eapply Forall_impl; [exact Hall|]. cbn. tauto. }
    pose proof (Split_joined ""%string name names) as Hs.
    change (""%string +:+ String.concat ", " (name :: names))
      with (String.concat ", " (name :: names)) in Hs.
    rewrite Hs; [| exact id | exact Hcommas].
    change (""%string +:+ name) with name. cbn [map].
    apply Forall_cons in Hall as [[_ Hn] Hall]. rewrite Hn. do 2 f_equal.
    clear -Hall. induction Hall as [|n names [_ Hn] Hall IH]; [reflexivity|].
    cbn [map]. rewrite Trim_skips by reflexivity. rewrite Hn, IH. reflexivity. }
  split; [exact Hset|]. intros playlist. rewrite Hset. cbn [isOnFilter].
  rewrite existsb_exists. split.
  - intros (n & Hin & Heq). apply String.eqb_eq in Heq as ->.
    apply list_elem_of_In. exact Hin.
  - intros Hin. exists playlist. split; [apply list_elem_of_In, Hin|].
    apply String.eqb_refl.
Qed.

(** A filter set from a non-empty string holds only names without a
    comma and without a space at either end: a playlist whose name has
    one is on no such filter. *)
Theorem filter_holds_only_plain_names
    (playlistFilter : string) (old : option (list string)) (playlist : string) :
  playlistFilter <> ""%string ->
  isOnFilter (setPlaylistFilter playlistFilter old) playlist = true ->
  plain playlist.
Proof.
  intros Hne. unfold setPlaylistFilter.
  destruct (String.eqb playlistFilter "") eqn:He;
    [apply String.eqb_eq in He; congruence|].
  cbn [isOnFilter]. rewrite existsb_exists. intros (n & Hin & Heq).
  apply String.eqb_eq in Heq as ->. apply in_map_iff in Hin as (piece & <- & Hin).
  split.
  - intros Hc. apply Trim_chars in Hc.
    apply (Split_pieces "," playlistFilter piece); [apply list_elem_of_In, Hin|exact Hc].
  - apply Trim_idem.
Qed.

(** With no filter set (the filter option empty or absent) every
    playlist is on the filter. *)
Lemma no_filter_lets_everything_through (playlist : string) :
  setPlaylistFilter "" None = None /\ isOnFilter None playlist = true.
Proof. split; reflexivity. Qed.

(** What reaches the interface under a name: nothing when the name is off
    the filter; otherwise the last entry of the container that is a
    playlist (not a folder mark or a placeholder) of that name, or
    nothing when there is none. *)
Theorem initPlaylist_lookup
    (filter : option (list string)) (container : list Entry) (name : string) :
  initPlaylist filter container !! name
  = if isOnFilter filter name
    then last (omap (fun e => if isPlaylist (entryType e) && String.eqb (entryName e) name
                              then Some (entryPlaylist e) else None)
                 container)
    else None.
Proof.
  unfold initPlaylist.
  set (step := fun (playlists : gmap string Ui.Playlist) e =>
                 if isPlaylist (entryType e) && isOnFilter filter (entryName e)
                 then <[entryName e := entryPlaylist e]> playlists else playlists).
  set (pick := fun e => if isPlaylist (entryType e) && String.eqb (entryName e) name
                        then Some (entryPlaylist e) else None).
  assert (Hgen : forall acc,
    foldl step acc container !! name
    = if isOnFilter filter name
      then match last (omap pick container) with
           | Some pl => Some pl
           | None => acc !! name
           end
      else acc !! name).
  { induction container as [|e container IH]; intros acc.
    - cbn. destruct (isOnFilter filter name); reflexivity.
    - cbn [foldl]. rewrite IH.
      change (omap pick (e :: container))
        with (match pick e with
              | Some pl => pl :: omap pick container
              | None => omap pick container
              end).
      change (step acc e) with
        (if isPlaylist (entryType e) && isOnFilter filter (entryName e)
         then <[entryName e := entryPlaylist e]> acc else acc).
      destruct (pick e) as [pl|] eqn:Hp; unfold pick in Hp.
      + destruct (isPlaylist (entryType e)); [|discriminate].
        destruct (String.eqb (entryName e) name) eqn:Hn; [|discriminate].
        apply String.eqb_eq in Hn. injection Hp as <-. rewrite Hn. cbn [andb].
        destruct (isOnFilter filter name); [|reflexivity].
        rewrite last_cons. destruct (last (omap pick container)); [reflexivity|].
        apply lookup_insert_eq.
      + destruct (isOnFilter filter name) eqn:Hf; [f_equal|];
          (destruct (isPlaylist (entryType e)); [|reflexivity]); cbn [andb] in *;
          (destruct (String.eqb (entryName e) name) eqn:Hn; [discriminate|]);
          apply String.eqb_neq in Hn;
          (destruct (isOnFilter filter (entryName e));
           [rewrite lookup_insert_ne by exact Hn|]); reflexivity. }
  rewrite Hgen, lookup_empty.
  destruct (isOnFilter filter name); [|reflexivity].
  destruct (last (omap pick container)); reflexivity.
Qed.

Lemma filter_of_joined_names_witness :
  String.concat ", " ["Jazz"; "Road trip"]%string = "Jazz, Road trip"%string
  /\ setPlaylistFilter "Jazz, Road trip" None = Some ["Jazz"; "Road trip"]%string.
Proof.
  split; [reflexivity|].
  apply (filter_of_joined_names ["Jazz"; "Road trip"]%string None).
  - repeat constructor; cbn; intuition discriminate.
  - discriminate.
Defined.

Lemma filter_holds_only_plain_names_witness :
  isOnFilter (setPlaylistFilter " Jazz ,Rock" None) "Jazz" = true
  /\ Trim isSpace "Jazz" = "Jazz"%string.
Proof.
  split; [reflexivity|].
  apply (filter_holds_only_plain_names " Jazz ,Rock" None "Jazz");
    [discriminate | reflexivity].
Defined.

End FilterFacts.

(** ** The prompt on the status line *)

Module PromptFacts.

Import Keys.

Local Abbreviation chars := list_ascii_of_string.

Section Trimming.

Variable cut : ascii -> bool.

Lemma TrimLeft_all_cut s :
  Forall (fun c => cut c = true) (chars s) -> TrimLeft cut s = ""%string.
Proof.
  induction s as [|c s IH]; [reflexivity|]. cbn. intros Hall.
  apply Forall_cons in Hall as [-> Hall]. exact (IH Hall).
Qed.

Lemma TrimLeft_kept s c :
  In c (chars s) -> cut c = false -> TrimLeft cut s <> ""%string.
Proof.
  induction s as [|c0 s IH]; [intros []|]. cbn. intros Hin Hc.
  destruct (cut c0) eqn:Hc0; [|discriminate].
  destruct Hin as [->|Hin]; [congruence|]. exact (IH Hin Hc).
Qed.

Lemma TrimRight_kept s :
  s <> ""%string ->
  match s with EmptyString => True | String c _ => cut c = false end ->
  TrimRight cut s <> ""%string.
Proof.
  destruct s as [|c s]; [congruence|]. intros _ Hc. cbn [TrimRight].
  destruct (TrimRight cut s); [rewrite Hc|]; discriminate.
Qed.

(** [Trim] gives the empty string exactly for a string made of cutset
    characters only. *)
Lemma Trim_empty_iff s :
  Trim cut s = ""%string <-> Forall (fun c => cut c = true) (chars s).
Proof.
  split.
  - intros Ht. apply Forall_forall. intros c Hin.
    destruct (cut c) eqn:Hc; [reflexivity|]. exfalso.
    apply list_elem_of_In in Hin.
    pose proof (TrimLeft_kept s c Hin Hc) as Hl.
    apply (TrimRight_kept (TrimLeft cut s) Hl); [|exact Ht].
    apply FilterFacts.TrimLeft_startsClean.
  - intros Hall. unfold Trim. rewrite TrimLeft_all_cut by exact Hall. reflexivity.
Qed.

End Trimming.

(** What leaving the prompt does. *)
Local Abbreviation leaving := [EnableSideView; ClearStatusView; UpdateCurrentStatus].

(** Enter on the search prompt. A line of nothing but spaces and NUL
    bytes publishes no search; any other line publishes one search, for
    the line without the spaces and NULs at its ends. Either way the
    prompt is left: side view enabled, status line cleared and no longer
    editable, status redrawn, [nil] returned. *)
Theorem enter_on_search_prompt (typed : string) (s : Prompt) :
  actionBeingExecuted s = Search ->
  executeAction typed s
  = Ok None {| actionBeingExecuted := Search; editable := false |}
      ((if String.eqb (Trim isBlank typed) ""
        then [] else [PublishSearch (Trim isBlank typed)]) ++ leaving)
  /\ (String.eqb (Trim isBlank typed) "" = true
      <-> Forall (fun c => isBlank c = true) (chars typed))
  /\ Trim isBlank (Trim isBlank typed) = Trim isBlank typed.
Proof.
  intros Ha. split; [|split].
  - destruct s as [a e]. cbn in Ha. subst a.
    unfold executeAction, searchCommand, leavePrompt, getTypedCommand, setEditable.
    run_cmd.
    destruct (String.eqb (Trim isBlank typed) ""); reflexivity.
  - rewrite String.eqb_eq. apply Trim_empty_iff.
  - apply FilterFacts.Trim_idem.
Qed.

(** Enter on the status line runs what the last prompt command set up:
    after [enableSearchInputCommand] a search, after
    [enableCreatePlaylistCommand] the
    creation of a playlist from the queue under the typed name; with
    neither set up it does nothing. *)
Theorem enter_runs_pending_prompt (typed : string) (s : Prompt) :
  (forall s1 o1, enableSearchInput s = Ok None s1 o1 ->
     executeAction typed s1 = searchCommand typed s1)
  /\ (forall s1 o1, enableCreatePlaylist s = Ok None s1 o1 ->
        executeAction typed s1 = createPlaylistCommand typed s1
        /\ forall c, In c (chars typed) -> isBlank c = false ->
             CreatePlaylistFromQueue (Trim isBlank typed)
             ∈ actions (executeAction typed s1))
  /\ (actionBeingExecuted s <> Search -> actionBeingExecuted s <> CreatePlaylist ->
      executeAction typed s = Ok None s []).
Proof.
  split; [|split].
  - intros s1 o1 [= <- <-].
    unfold executeAction, searchCommand, leavePrompt, getTypedCommand, setEditable.
    run_cmd. destruct (String.eqb (Trim isBlank typed) ""); reflexivity.
  - intros s1 o1 [= <- <-]. split.
    { unfold executeAction, createPlaylistCommand, leavePrompt, getTypedCommand,
        setEditable.
      run_cmd. destruct (String.eqb (Trim isBlank typed) ""); reflexivity. }
    intros c Hin Hc.
    unfold executeAction, createPlaylistCommand, leavePrompt, getTypedCommand, setEditable.
    run_cmd.
    destruct (String.eqb (Trim isBlank typed) "") eqn:He.
    + exfalso. apply String.eqb_eq in He.
      apply (Trim_empty_iff isBlank) in He. rewrite Forall_forall in He.
      apply list_elem_of_In in Hin. specialize (He c Hin). congruence.
    + cbn. apply elem_of_cons. left. reflexivity.
  - intros H1 H2. unfold executeAction. run_cmd.
    apply String.eqb_neq in H1, H2. rewrite H1, H2. reflexivity.
Qed.

Lemma enter_on_search_prompt_witness :
  executeAction "  miles davis " {| actionBeingExecuted := Search; editable := true |}
  = Ok None {| actionBeingExecuted := Search; editable := false |}
      [PublishSearch "miles davis"; EnableSideView; ClearStatusView;
       UpdateCurrentStatus].
Proof.
  apply (enter_on_search_prompt "  miles davis "
           {| actionBeingExecuted := Search; editable := true |}).
  reflexivity.
Defined.

End PromptFacts.

(** ** Waiting for the login *)

Module LoginFacts.

Import Player.

(** The wait of the complete earlier version answers [true] exactly when
    a logged-in connection state arrives with no timeout before it, and
    [false] exactly when the timeout arrives with no logged-in
    connection state before it; otherwise it is still waiting. *)
Theorem login_wait_result (arrivals : list LoginSignal) :
  (waitForSuccessfulConnectionStateUpdates arrivals = Some true
   <-> exists before rest,
         arrivals = before ++ ConnectionState true :: rest
         /\ Forall (fun sig => sig = ConnectionState false) before)
  /\ (waitForSuccessfulConnectionStateUpdates arrivals = Some false
      <-> exists before rest,
            arrivals = before ++ Timeout :: rest
            /\ Forall (fun sig => sig = ConnectionState false) before)
  /\ (waitForSuccessfulConnectionStateUpdates arrivals = None
      <-> Forall (fun sig => sig = ConnectionState false) arrivals).
Proof.
  induction arrivals as [|sig arrivals (IHt & IHf & IHn)].
  - cbn. repeat split; try discriminate; try constructor.
    + intros (before & rest & He & _). destruct before; discriminate.
    + intros (before & rest & He & _). destruct before; discriminate.
  - destruct sig as [[]|]; cbn [waitForSuccessfulConnectionStateUpdates].
    + split; [|split].
      * split; [intros _; exists [], arrivals; split; [reflexivity|constructor]|reflexivity].
      * split; [discriminate|]. intros (before & rest & He & Hb).
        destruct before as [|b before]; [discriminate|].
        injection He as <- _. apply Forall_cons in Hb as [Hb _]. discriminate.
      * split; [discriminate|]. intros Hall. apply Forall_cons in Hall as [Hb _].
        discriminate.
    + split; [|split].
      * rewrite IHt. split.
        -- intros (before & rest & -> & Hb).
           exists (ConnectionState false :: before), rest. split; [reflexivity|].
           constructor; [reflexivity|exact Hb].
        -- intros (before & rest & He & Hb).
           destruct before as [|b before]; [discriminate|].
           injection He as _ ->. apply Forall_cons in Hb as [_ Hb]. eauto.
      * rewrite IHf. split.
        -- intros (before & rest & -> & Hb).
           exists (ConnectionState false :: before), rest. split; [reflexivity|].
           constructor; [reflexivity|exact Hb].
        -- intros (before & rest & He & Hb).
           destruct before as [|b before]; [discriminate|].
           injection He as _ ->. apply Forall_cons in Hb as [_ Hb]. eauto.
      * rewrite IHn. split; [intros Hall; constructor; [reflexivity|exact Hall]|].
        intros Hall. apply Forall_cons in Hall as [_ Hall]. exact Hall.
    + split; [|split].
      * split; [discriminate|]. intros (before & rest & He & Hb).
        destruct before as [|b before]; [discriminate|].
        injection He as <- _. apply Forall_cons in Hb as [Hb _]. discriminate.
      * split; [intros _; exists [], arrivals; split; [reflexivity|constructor]|reflexivity].
      * split; [discriminate|]. intros Hall. apply Forall_cons in Hall as [Hb _].
        discriminate.
Qed.

(** The later version gives up on the first connection state that is not
    logged in, where the earlier one goes on waiting: whenever the later
    one reports a login the earlier one does too, and not the other way
    round. *)
Theorem later_login_wait_is_stricter :
  (forall arrivals,
     waitForSuccessfulConnectionStateUpdates' arrivals = Some true ->
     waitForSuccessfulConnectionStateUpdates arrivals = Some true)
  /\ waitForSuccessfulConnectionStateUpdates
       [ConnectionState false; ConnectionState true] = Some true
  /\ waitForSuccessfulConnectionStateUpdates'
       [ConnectionState false; ConnectionState true] = Some false.
Proof.
  split; [|split; reflexivity].
  intros [|[[]|] rest]; cbn; congruence.
Qed.

End LoginFacts.

(** ** The track under the cursor *)

Module SelectFacts.

Import Ui.

Local Abbreviation chars := list_ascii_of_string.

Lemma digits_have_no_dot (d : uint) :
  ~ In "."%char (chars (NilEmpty.string_of_uint d)).
Proof.
  induction d; cbn; intros H; try (destruct H as [H|H]; [discriminate|]); auto.
Qed.

Lemma IndexByte_after (sep : ascii) (a b : string) :
  ~ In sep (chars a) -> IndexByte sep (a +:+ String sep b) = Some (String.length a).
Proof.
  induction a as [|c a IH]; intros Ha.
  - change (""%string +:+ String sep b) with (String sep b). cbn.
    rewrite Ascii.eqb_refl. reflexivity.
  - change (String c a +:+ String sep b) with (String c (a +:+ String sep b)).
    cbn [IndexByte]. cbn in Ha.
    destruct (Ascii.eqb c sep) eqn:Hc; [apply Ascii.eqb_eq in Hc; tauto|].
    rewrite IH by tauto. reflexivity.
Qed.

Lemma substring_front (a b : string) : substring 0 (String.length a) (a +:+ b) = a.
Proof.
  induction a as [|c a IH]; [destruct b; reflexivity|].
  change (String c a +:+ b) with (String c (a +:+ b)). cbn. rewrite IH. reflexivity.
Qed.

(** Reading back a printed positive number gives the number. *)
Lemma Atoi_formatInt (n : Z) : 0 < n < 2 ^ 63 -> Atoi (formatInt n) = n.
Proof.
  intros Hn. destruct n as [|p|p]; try lia.
  unfold formatInt. cbn [Z.to_int NilZero.string_of_int].
  pose proof (DecimalZ.of_to (Z.pos p)) as Hv. cbn [Z.to_int Z.of_int] in Hv.
  pose proof (DecimalPos.Unsigned.to_uint_nonnil p) as Hnil.
  pose proof (NilEmpty.usu (Pos.to_uint p)) as Hu.
  assert (Hd : digitsValue (NilEmpty.string_of_uint (Pos.to_uint p)) = Some (Z.pos p)).
  { unfold digitsValue. rewrite Hu. cbn. rewrite Hv.
    destruct (Pos.to_uint p); [congruence|reflexivity..]. }
  unfold NilZero.string_of_uint.
  destruct (Pos.to_uint p) eqn:Hp; [congruence|..];
    cbn [NilEmpty.string_of_uint] in *; unfold Atoi; rewrite Hd; lia.
Qed.

Lemma formatInt_has_no_dot (n : Z) : 0 < n -> ~ In "."%char (chars (formatInt n)).
Proof.
  intros Hn. destruct n as [|p|p]; try lia.
  unfold formatInt. cbn [Z.to_int NilZero.string_of_int]. unfold NilZero.string_of_uint.
  pose proof (digits_have_no_dot (Pos.to_uint p)) as Hd.
  destruct (Pos.to_uint p) eqn:Hp; [|exact Hd..].
  destruct (DecimalPos.Unsigned.to_uint_nonnil p Hp).
Qed.

(** The index that the selected line sends the cursor to. *)
Local Abbreviation lineIndex n line := (wrap64 (Atoi (substring 0 n line) - 1)).

(** With the playlist found and a dot in the line, what is left is to
    take the track at the index read from the line. *)
Lemma getCurrentSelectedTrack_found name line (g : Gui) pl n :
  lookupPlaylist (playlists g) name = Some pl ->
  IndexByte "." line = Some n ->
  getCurrentSelectedTrack name line g
  = match TrackAt (Some pl) (lineIndex n line) (cursorAt name (lineIndex n line) g) with
    | Ok t s o => Ok (Some t) s o
    | Exit s o => Exit s o
    | Panic s o => Panic s o
    end.
Proof.
  intros Hl Hi. unfold getCurrentSelectedTrack, setCurrentPlaylist, setIndex, setState.
  unfold mbind, M_bind, modify, get, mret, M_ret. cbn [state playlists currentPlaylist].
  rewrite Hl, Hi. cbn [state currentIndexTrack currentPlaylist currentMessage mode
                        queue playlists currentTrack rand drawn].
  unfold cursorAt.
  destruct (TrackAt (Some pl) _ _) as [t s o| |]; cbn [app];
    rewrite ?app_nil_r; reflexivity.
Qed.

(** Selecting the line that [updateTracksView] writes for a track of the
    selected playlist puts the cursor on that playlist and that track and
    returns the track; nothing is sent and nothing else changes. *)
Theorem selected_line_gives_its_track name (pl : Playlist) (i : nat) t (g : Gui) :
  lookupPlaylist (playlists g) name = Some pl ->
  pl !! i = Some t ->
  Z.of_nat (length pl) < 2 ^ 63 ->
  getCurrentSelectedTrack name (trackLine (Z.of_nat i) t) g
  = Ok (Some t) (cursorAt name (Z.of_nat i) g) [].
Proof.
  intros Hl Ht Hlen.
  pose proof (lookup_lt_Some _ _ _ Ht) as Hi.
  set (digits := formatInt (Z.of_nat i + 1)).
  set (rest := (" " +:+ trackArtist t +:+ " - " +:+ trackName t)%string).
  assert (Hline : trackLine (Z.of_nat i) t = (digits +:+ String "." rest)%string)
    by reflexivity.
  assert (Hdot : IndexByte "." (trackLine (Z.of_nat i) t) = Some (String.length digits)).
  { rewrite Hline. apply IndexByte_after, formatInt_has_no_dot. lia. }
  rewrite (getCurrentSelectedTrack_found name _ g pl _ Hl Hdot).
  rewrite Hline, substring_front. unfold digits. rewrite Atoi_formatInt by lia.
  replace (Z.of_nat i + 1 - 1) with (Z.of_nat i) by lia.
  rewrite KeysFacts.wrap64_small by lia.
  unfold TrackAt.
  destruct ((Z.of_nat i <? 0) || (Z.of_nat (length pl) <=? Z.of_nat i)) eqn:Hb.
  { apply orb_true_iff in Hb as [Hb|Hb];
      [apply Z.ltb_lt in Hb | apply Z.leb_le in Hb]; lia. }
  rewrite Nat2Z.id, Ht. reflexivity.
Qed.

(** When the selection gives no track. If the selected playlist is not
    in the collection, only the cursor's playlist name changes and [nil]
    is returned. If it is, a line without a dot makes the slice panic,
    and a line whose number is not between 1 and the track count moves
    the cursor there and panics on taking the track. *)
Theorem selection_without_a_track name line (g : Gui) :
  (lookupPlaylist (playlists g) name = None ->
   getCurrentSelectedTrack name line g
   = Ok None (cursorAt name (currentIndexTrack (state g)) g) [])
  /\ (forall pl, lookupPlaylist (playlists g) name = Some pl ->
        IndexByte "." line = None ->
        getCurrentSelectedTrack name line g
        = Panic (cursorAt name (currentIndexTrack (state g)) g) [])
  /\ (forall pl n, lookupPlaylist (playlists g) name = Some pl ->
        IndexByte "." line = Some n ->
        lineIndex n line < 0 \/ Z.of_nat (length pl) <= lineIndex n line ->
        getCurrentSelectedTrack name line g
        = Panic (cursorAt name (lineIndex n line) g) []).
Proof.
  split; [|split].
  - intros Hl. unfold getCurrentSelectedTrack, setCurrentPlaylist, setState.
    unfold mbind, M_bind, modify, get, mret, M_ret. cbn [state playlists currentPlaylist].
    rewrite Hl. reflexivity.
  - intros pl Hl Hi. unfold getCurrentSelectedTrack, setCurrentPlaylist, setState.
    unfold mbind, M_bind, modify, get, mret, M_ret, panic.
    cbn [state playlists currentPlaylist]. rewrite Hl, Hi. reflexivity.
  - intros pl n Hl Hi Hout.
    rewrite (getCurrentSelectedTrack_found name line g pl n Hl Hi).
    unfold TrackAt.
    destruct ((lineIndex n line <? 0) || (Z.of_nat (length pl) <=? lineIndex n line))
      eqn:Hb; [reflexivity|].
    apply orb_false_iff in Hb as [H1 H2].
    apply Z.ltb_ge in H1. apply Z.leb_gt in H2. lia.
Qed.

Lemma selected_line_gives_its_track_witness :
  trackLine 1 goneSong = "2. Band - Gone"%string
  /\ getCurrentSelectedTrack "full" "2. Band - Gone" (sampleGui Sequential 0 [])
     = Ok (Some goneSong) (cursorAt "full" 1 (sampleGui Sequential 0 [])) [].
Proof.
  split; [reflexivity|].
  apply (selected_line_gives_its_track "full" [song; goneSong] 1 goneSong
           (sampleGui Sequential 0 [])); [reflexivity | reflexivity | cbn; lia].
Defined.

End SelectFacts.
